(** * morkdump: the Mork scanner and recursive-descent parser

    A shallow embedding of [lex.go] and [parse.go].  The scanner is a state
    machine over a byte buffer that queues items; the parser is a recursive
    descent over that scanner with a sticky error field, namespace-keyed
    dictionaries, and three ways to end: a normal return, a Go panic, or a
    loop that never exits. *)

From Stdlib Require Import ZArith Ascii String List Lia.
From stdpp Require Import base option gmap strings list fin_maps.

Local Open Scope Z_scope.

(** ** lex.go: items *)

Inductive itemType : Set :=
  | tEOF | tERROR | tLITERAL | tNAME | tCARET | tPLUS | tCOLON | tEQUAL
  | tLANGLE | tRANGLE | tLPAREN | tRPAREN | tLSQUARE | tRSQUARE
  | tLBRACE | tRBRACE | tGROUPSTART | tGROUPCOMMIT | tGROUPABORT.

#[global] Instance itemType_eq_dec : EqDecision itemType.
Proof. solve_decision. Defined.

Record position : Set := mkPos { offset : nat; line : nat; col : nat }.

Record item : Set := mkItem { typ : itemType; val : string; pos : position }.

(** Go's zero value [item{}]: its type is the first constant, [tEOF]. *)
Definition zeroItem : item := mkItem tEOF "" (mkPos 0 0 0).

(** A rune is an [int32]; the scanner reads single bytes (0..255) and uses
    [-1] for the end of the input. *)
Definition rune := Z.
Definition EOF : rune := -1.
Definition rune_of (c : ascii) : rune := Z.of_N (N_of_ascii c).
Arguments rune_of c%_char.

Inductive stateFn : Set :=
  | lexDefault | lexLiteral | lexComment | lexName | lexGroup.

(** [state] is [None] for the nil function the states return when scanning
    stops.  [items] is the channel; it is buffered for two items, and no state
    sends more than two before [nextItem] receives (see [run_items_le_2]). *)
Record lexer : Set := mkLexer {
  input : string;
  curr : position;
  start : position;
  state : option stateFn;
  items : list item
}.

Definition with_curr (l : lexer) (c : position) : lexer :=
  mkLexer (input l) c (start l) (state l) (items l).
Definition with_start (l : lexer) (s : position) : lexer :=
  mkLexer (input l) (curr l) s (state l) (items l).
Definition with_state (l : lexer) (s : option stateFn) : lexer :=
  mkLexer (input l) (curr l) (start l) s (items l).
Definition with_items (l : lexer) (its : list item) : lexer :=
  mkLexer (input l) (curr l) (start l) (state l) its.

Definition newLexer (inp : string) : lexer :=
  mkLexer inp (mkPos 0 1 0) (mkPos 0 1 0) (Some lexDefault) [].

(** Bytes of the input not yet consumed. *)
Definition remaining (l : lexer) : nat :=
  (String.length (input l) - offset (curr l))%nat.

Definition next (l : lexer) : rune * lexer :=
  if (String.length (input l) <=? offset (curr l))%nat then (EOF, l)
  else
    let r := match String.get (offset (curr l)) (input l) with
             | Some c => rune_of c
             | None => EOF
             end in
    let c := curr l in
    (r, with_curr l (if r =? rune_of "010"
                     then mkPos (S (offset c)) (S (line c)) 0
                     else mkPos (S (offset c)) (line c) (S (col c)))).

Definition peek (l : lexer) : rune :=
  if (String.length (input l) <=? offset (curr l))%nat then EOF
  else match String.get (offset (curr l)) (input l) with
       | Some c => rune_of c
       | None => EOF
       end.

Definition emit (t : itemType) (l : lexer) : lexer :=
  let it := mkItem t
              (String.substring (offset (start l))
                 (offset (curr l) - offset (start l)) (input l))
              (start l) in
  with_start (with_items l (items l ++ [it])) (curr l).

Definition emitErrorf (msg : string) (l : lexer) : lexer :=
  with_items l (items l ++ [mkItem tERROR msg (start l)]).

Definition syntaxError (l : lexer) : lexer * option stateFn :=
  (emitErrorf "Syntax error" l, None).

Definition isSpace (r : rune) : bool :=
  (r =? rune_of " ") || (r =? rune_of "010") || (r =? rune_of "013")
  || (r =? rune_of "009").

Definition isDigit (r : rune) : bool :=
  (rune_of "0" <=? r) && (r <=? rune_of "9").

Definition isAlpha (r : rune) : bool :=
  ((rune_of "a" <=? r) && (r <=? rune_of "z"))
  || ((rune_of "A" <=? r) && (r <=? rune_of "Z")).

Definition isHex (r : rune) : bool :=
  ((rune_of "a" <=? r) && (r <=? rune_of "f"))
  || (((rune_of "A" <=? r) && (r <=? rune_of "F"))
      || ((rune_of "0" <=? r) && (r <=? rune_of "9"))).

(** The map of single-rune items. *)
Definition singles (r : rune) : option itemType :=
  if r =? rune_of "(" then Some tLPAREN
  else if r =? rune_of ")" then Some tRPAREN
  else if r =? rune_of "[" then Some tLSQUARE
  else if r =? rune_of "]" then Some tRSQUARE
  else if r =? rune_of "{" then Some tLBRACE
  else if r =? rune_of "}" then Some tRBRACE
  else if r =? rune_of "<" then Some tLANGLE
  else if r =? rune_of ">" then Some tRANGLE
  else if r =? rune_of ":" then Some tCOLON
  else if r =? rune_of "+" then Some tPLUS
  else None.

(** [string(r)] for a rune that is a single byte. *)
Definition string_of_rune (r : rune) : string :=
  String (ascii_of_N (Z.to_N r)) EmptyString.

(** [strings.ContainsRune]: no byte string holds [EOF] or a rune above 127
    as one of its bytes' runes here, since the set searched is ASCII. *)
Fixpoint containsRune (s : string) (r : rune) : bool :=
  match s with
  | EmptyString => false
  | String c s' => (r =? rune_of c) || containsRune s' r
  end.

(** The scanning loops below consume one byte per round and leave at the end
    of the input, so each is given [remaining l] rounds; with none left, [peek]
    is [EOF] and the loop has already left: the branch for no round left is
    never taken (see [peek_at_end] and the [_rounds] lemmas). *)

Fixpoint gatherID_loop (n : nat) (id : string) (l : lexer) : string * lexer :=
  let r := peek l in
  if negb (isHex r) then (id, l)
  else match n with
       | O => (id, l)
       | S n' => gatherID_loop n' (id +:+ string_of_rune r) (snd (next l))
       end.

Definition gatherID (l : lexer) : string * lexer :=
  gatherID_loop (remaining l) "" l.

Definition dquote : string := String (ascii_of_nat 34) EmptyString.

Fixpoint lexer_expect_loop (whole s : string) (l : lexer) : bool * lexer :=
  match s with
  | EmptyString => (true, l)
  | String expected s' =>
      let '(r, l1) := next l in
      if negb (r =? rune_of expected)
      then (false, emitErrorf ("Expected " +:+ dquote +:+ whole +:+ dquote) l1)
      else lexer_expect_loop whole s' l1
  end.

(** The scanner's own [expect]. *)
Definition lexer_expect (s : string) (l : lexer) : bool * lexer :=
  lexer_expect_loop s s l.

Fixpoint lexLiteral_loop (n : nat) (esc : bool) (l : lexer) : lexer :=
  let r := peek l in
  if r =? EOF then l
  else if negb esc && (r =? rune_of ")") then l
  else
    let esc' := if negb esc && (r =? rune_of "\") then true else false in
    match n with
    | O => l
    | S n' => lexLiteral_loop n' esc' (snd (next l))
    end.

Definition run_lexLiteral (l : lexer) : lexer * option stateFn :=
  let '(r, l1) := next l in
  if negb (r =? rune_of "=") then (emitErrorf "Missing '='" l1, None)
  else
    let l2 := emit tEQUAL l1 in
    let l3 := lexLiteral_loop (remaining l2) false l2 in
    (emit tLITERAL l3, Some lexDefault).

Fixpoint lexComment_loop (n : nat) (l : lexer) : lexer :=
  let r := peek l in
  if (r =? EOF) || (r =? rune_of "010") then l
  else match n with
       | O => l
       | S n' => lexComment_loop n' (snd (next l))
       end.

Definition run_lexComment (l : lexer) : lexer * option stateFn :=
  let '(r, l1) := next l in
  if negb (r =? rune_of "/") then (emitErrorf "expected '/'" l1, None)
  else
    let '(r, l2) := next l1 in
    if negb (r =? rune_of "/") then (emitErrorf "expected '/'" l2, None)
    else
      let l3 := lexComment_loop (remaining l2) l2 in
      (with_start l3 (curr l3), Some lexDefault).

Definition nonLeading : string := "-!?+".

Fixpoint lexName_loop (n : nat) (first : bool) (l : lexer) : lexer :=
  let r := peek l in
  if negb (isAlpha r || isDigit r || (r =? rune_of "_")
           || (negb first && containsRune nonLeading r))
  then l
  else match n with
       | O => l
       | S n' => lexName_loop n' false (snd (next l))
       end.

Definition run_lexName (l : lexer) : lexer * option stateFn :=
  (emit tNAME (lexName_loop (remaining l) true l), Some lexDefault).

Definition run_lexGroup (l : lexer) : lexer * option stateFn :=
  let '(ok, l1) := lexer_expect "@$$" l in
  if negb ok then (l1, None)
  else
    let '(r, l2) := next l1 in
    if r =? rune_of "{" then
      let '(id, l3) := gatherID l2 in
      if (String.length id =? 0)%nat then (emitErrorf "Bad ID" l3, None)
      else
        let '(ok, l4) := lexer_expect "{@" l3 in
        if negb ok then (l4, None)
        else (emit tGROUPSTART l4, Some lexDefault)
    else if r =? rune_of "}" then
      let r := peek l2 in
      if r =? rune_of "~" then
        let '(ok, l3) := lexer_expect "~~}@" l2 in
        if negb ok then (l3, None)
        else (emit tGROUPABORT l3, Some lexDefault)
      else
        let '(id, l3) := gatherID l2 in
        if (String.length id =? 0)%nat then (emitErrorf "Bad ID" l3, None)
        else
          let '(ok, l4) := lexer_expect "}@" l3 in
          if negb ok then (l4, None)
          else (emit tGROUPCOMMIT l4, Some lexDefault)
    else syntaxError l2.

Fixpoint lexDefault_loop (n : nat) (l : lexer) : lexer * option stateFn :=
  let r := peek l in
  if r =? EOF then (emit tEOF l, None)
  else if isSpace r then
    match n with
    | O => (l, None)
    | S n' =>
        let l1 := snd (next l) in
        lexDefault_loop n' (with_start l1 (curr l1))
    end
  else
    match singles r with
    | Some t => (emit t (snd (next l)), Some lexDefault)
    | None =>
        if r =? rune_of "^" then
          let l1 := emit tCARET (snd (next l)) in
          let '(id, l2) := gatherID l1 in
          if (String.length id =? 0)%nat then syntaxError l2
          else (emit tNAME l2, Some lexDefault)
        else if r =? rune_of "/" then (l, Some lexComment)
        else if r =? rune_of "=" then (l, Some lexLiteral)
        else if isAlpha r || isDigit r || (r =? rune_of "_")
        then (l, Some lexName)
        else if r =? rune_of "@" then (l, Some lexGroup)
        else syntaxError l
    end.

Definition run_lexDefault (l : lexer) : lexer * option stateFn :=
  lexDefault_loop (remaining l) l.

(** Calling a state function. *)
Definition run (s : stateFn) (l : lexer) : lexer * option stateFn :=
  match s with
  | lexDefault => run_lexDefault l
  | lexLiteral => run_lexLiteral l
  | lexComment => run_lexComment l
  | lexName => run_lexName l
  | lexGroup => run_lexGroup l
  end.

(** [nextItem] receives from the channel, and runs the current state while
    the channel is empty.  Once a state has returned nil, running it is a call
    of a nil function: a run-time panic.  Two runs of states take at least
    two bytes or send an item, so [remaining l + 2] rounds are given;
    [LStuck] stands for running out of them, which [nextItem_not_stuck]
    excludes. *)
Inductive lexres : Set :=
  | LItem (it : item) (l : lexer)
  | LNil (l : lexer)
  | LStuck.

Fixpoint nextItem_loop (n : nat) (l : lexer) : lexres :=
  match items l with
  | it :: rest => LItem it (with_items l rest)
  | [] =>
      match state l with
      | None => LNil l
      | Some s =>
          match n with
          | O => LStuck
          | S n' =>
              let '(l1, s1) := run s l in
              nextItem_loop n' (with_state l1 s1)
          end
      end
  end.

Definition nextItem (l : lexer) : lexres :=
  nextItem_loop (remaining l + 2) l.

(** [dumpToks] without the printing: the items up to the end or an error,
    each with its type and text. *)
Fixpoint dumpToks (n : nat) (l : lexer) : list (itemType * string) :=
  match n with
  | O => []
  | S n' =>
      match nextItem l with
      | LItem it l' =>
          (typ it, val it) ::
          (if decide (typ it = tEOF) then []
           else if decide (typ it = tERROR) then []
           else dumpToks n' l')
      | _ => []
      end
  end.

Local Close Scope Z_scope.

(** ** parse.go: the data model *)

Abbreviation Row := (gmap string string) (only parsing).

Record Table : Type := mkTable {
  meta : gmap string string;
  rows : gmap string (gmap string string)
}.

(** [Table{}]: both maps nil.  A nil map reads like an empty one, and no
    statement below writes to a map that can be nil, so nil maps are the
    empty map here. *)
Definition zeroTable : Table := mkTable ∅ ∅.

(** The errors [fmt.Errorf] builds, by format string, with the arguments
    kept as data instead of being printed into the message. *)
Inductive perror : Set :=
  | ErrBadAlias (file id namespace : string)   (* "%s: bad alias %s:%s" *)
  | ErrUnexpected (file : string) (tok : item) (* "%s: Unexpected %s" *)
  | ErrExpect (file : string) (tok : item)     (* "%s: Unexpected - %s" *)
  | ErrNotHex (file : string) (tok : item).    (* "%s: Not hex - %s" *)

Record parser : Type := mkParser {
  filename : string;
  lex : lexer;
  peeked : option item;
  err : option perror;
  dicts : gmap string (gmap string string)
}.

Definition NewParser (file : string) (l : lexer) : parser :=
  mkParser file l None None ∅.

Definition with_lex (p : parser) (l : lexer) : parser :=
  mkParser (filename p) l (peeked p) (err p) (dicts p).
Definition with_peeked (p : parser) (t : option item) : parser :=
  mkParser (filename p) (lex p) t (err p) (dicts p).
Definition with_err (p : parser) (e : option perror) : parser :=
  mkParser (filename p) (lex p) (peeked p) e (dicts p).
Definition with_dicts (p : parser) (d : gmap string (gmap string string))
  : parser :=
  mkParser (filename p) (lex p) (peeked p) (err p) d.

(** ** The ways a call can end *)

Inductive panic : Set :=
  | PanicPoop      (* panic("poop") in expect *)
  | PanicNilState. (* nextItem calls the nil state function *)

(** [Ret a p]: the call returns [a] and leaves the parser as [p].
    [Panic v p]: the goroutine panics (nothing recovers, the program dies).
    [OutOfFuel]: the loops were cut off after the given number of rounds. *)
Inductive Res (A : Type) : Type :=
  | Ret (a : A) (p : parser)
  | Panic (v : panic) (p : parser)
  | OutOfFuel.
Arguments Ret {A} a p.
Arguments Panic {A} v p.
Arguments OutOfFuel {A}.

Definition M (A : Type) : Type := parser -> Res A.

Definition ret {A} (a : A) : M A := fun p => Ret a p.

Definition bind {A B} (m : M A) (k : A -> M B) : M B :=
  fun p =>
    match m p with
    | Ret a p' => k a p'
    | Panic v p' => Panic v p'
    | OutOfFuel => OutOfFuel
    end.

Notation "x <~ m ; k" := (bind m (fun x => k))
  (at level 20, m at level 100, k at level 200, only parsing).
Notation "' pat <~ m ; k" := (bind m (fun x => match x with pat => k end))
  (at level 20, pat pattern, m at level 100, k at level 200, only parsing).
Notation "m ;;; k" := (bind m (fun _ => k))
  (at level 100, k at level 200, right associativity, only parsing).

Definition get_err : M (option perror) := fun p => Ret (err p) p.
Definition set_err (e : perror) : M unit :=
  fun p => Ret tt (with_err p (Some e)).
Definition get_filename : M string := fun p => Ret (filename p) p.
Definition do_panic {A} (v : panic) : M A := fun p => Panic v p.

(** ** parse.go: the parser *)

(** [dict] returns the dictionary of a namespace, creating it if required. *)
Definition dict (namespace : string) : M (gmap string string) :=
  fun p =>
    match dicts p !! namespace with
    | Some d => Ret d p
    | None => Ret ∅ (with_dicts p (<[namespace := ∅]> (dicts p)))
    end.

Definition resolve (id namespace : string) : M string :=
  fun p =>
    match err p with
    | Some _ => Ret "" p
    | None =>
        (d <~ dict namespace ;
         match d !! id with
         | None =>
             set_err (ErrBadAlias (filename p) id namespace) ;;; ret ""
         | Some full => ret full
         end) p
    end.

(** Reading the scanner from the parser. *)
Definition lex_nextItem : M item :=
  fun p =>
    match nextItem (lex p) with
    | LItem it l' => Ret it (with_lex p l')
    | LNil l' => Panic PanicNilState (with_lex p l')
    | LStuck => OutOfFuel
    end.

Definition peekTok : M item :=
  fun p =>
    match peeked p with
    | None =>
        (tok <~ lex_nextItem ;
         fun p' => Ret tok (with_peeked p' (Some tok))) p
    | Some tok => Ret tok p
    end.

Definition nextTok : M item :=
  fun p =>
    match peeked p with
    | Some tok => Ret tok (with_peeked p None)
    | None => lex_nextItem p
    end.

(** [expect]: the statement after [panic("poop")] is never reached. *)
Definition expect (expected : itemType) : M item :=
  fun p =>
    match err p with
    | Some _ => Ret zeroItem p
    | None =>
        (tok <~ nextTok ;
         if decide (typ tok ≠ expected) then
           set_err (ErrExpect (filename p) tok) ;;; do_panic PanicPoop
         else ret tok) p
    end.

Definition expectName : M string :=
  tok <~ expect tNAME ; ret (val tok).

(** [for _, r := range tok.val]: the runes of a string.  A byte below 128 is
    its own rune; any other byte decodes to a rune of at least 128, which is
    no hex digit either, so testing byte by byte decides the same. *)
Fixpoint all_hex (s : string) : bool :=
  match s with
  | EmptyString => true
  | String c s' => if negb (isHex (rune_of c)) then false else all_hex s'
  end.

Definition expectID : M string :=
  tok <~ expect tNAME ;
  e <~ get_err ;
  match e with
  | Some _ => ret ""
  | None =>
      if all_hex (val tok) then ret (val tok)
      else f <~ get_filename ; set_err (ErrNotHex f tok) ;;; ret ""
  end.

Definition expectRef (defaultNamespace : string) : M string :=
  expect tCARET ;;;
  id <~ expectID ;
  tok <~ peekTok ;
  ns <~ (if decide (typ tok = tCOLON)
         then nextTok ;;; tok <~ expect tNAME ; ret (val tok)
         else ret defaultNamespace) ;
  resolve id ns.

Definition expectOID (defaultNamespace : string) : M (string * string) :=
  name <~ expectID ;
  colon <~ peekTok ;
  scope <~ (if decide (typ colon = tCOLON) then
              nextTok ;;;
              tok <~ peekTok ;
              if decide (typ tok = tCARET) then expectRef defaultNamespace
              else tok <~ expect tNAME ; ret (val tok)
            else ret "") ;
  ret (name, scope).

Definition expectCell : M (string * string) :=
  expect tLPAREN ;;;
  tok <~ peekTok ;
  name <~ (if decide (typ tok = tCARET) then expectRef "c" else expectName) ;
  tok <~ peekTok ;
  value <~ (if decide (typ tok = tEQUAL)
            then nextTok ;;; tok <~ expect tLITERAL ; ret (val tok)
            else expectRef "a") ;
  expect tRPAREN ;;;
  ret (name, value).

(** [expectCells]: the loop, with the map [out] built so far.  On an error
    the function returns nil. *)
Fixpoint expectCells_loop (fuel : nat) (out : gmap string string)
  : M (gmap string string) :=
  match fuel with
  | O => fun _ => OutOfFuel
  | S fuel' =>
      tok <~ peekTok ;
      if decide (typ tok ≠ tLPAREN) then ret out
      else
        '(name, value) <~ expectCell ;
        e <~ get_err ;
        match e with
        | Some _ => ret ∅
        | None => expectCells_loop fuel' (<[name := value]> out)
        end
  end.

Definition expectCells (fuel : nat) : M (gmap string string) :=
  expectCells_loop fuel ∅.

Definition expectMetadict (fuel : nat) : M (gmap string string) :=
  expect tLANGLE ;;;
  cells <~ expectCells fuel ;
  expect tRANGLE ;;;
  ret cells.

(** [for k, v := range cells { targ[k] = v }] *)
Definition merge_cells (cells targ : gmap string string) : gmap string string :=
  map_fold (fun k v t => <[k := v]> t) targ cells.

(** Lines 132-143 of [expectDict]: the opening bracket and the optional
    metadict, giving the namespace the cells go to. *)
Definition expectDict_scope (fuel : nat) : M string :=
  expect tLANGLE ;;;
  tok <~ peekTok ;
  if decide (typ tok = tLANGLE) then
    meta <~ expectMetadict fuel ;
    match meta !! "a" with
    | Some a => ret a
    | None => ret "a"
    end
  else ret "a".

(** [targ := p.dict(scope)] and the loop that writes the cells into it; the
    map is shared with [p.dicts], so the writes land there. *)
Definition update_dict (scope : string) (cells : gmap string string) : M unit :=
  targ <~ dict scope ;
  fun p =>
    Ret tt (with_dicts p (<[scope := merge_cells cells targ]> (dicts p))).

Definition expectDict (fuel : nat) : M unit :=
  scope <~ expectDict_scope fuel ;
  cells <~ expectCells fuel ;
  expect tRANGLE ;;;
  e <~ get_err ;
  match e with
  | None => update_dict scope cells
  | Some _ => ret tt
  end.

Definition expectRow (fuel : nat) (rowScope : string)
  : M (string * gmap string string) :=
  expect tLSQUARE ;;;
  '(roid, _) <~ expectOID rowScope ;
  cells <~ expectCells fuel ;
  expect tRSQUARE ;;;
  ret (roid, cells).

(** [fmt.Sprintf("%s:%s", toid, tscope)] *)
Definition coalesce (toid tscope : string) : string :=
  toid +:+ ":" +:+ tscope.

(** The loop that skips to the end of the metatable: [false] when it leaves
    the function through [return toid, Table{}], [true] on [break]. *)
Fixpoint skip_metatable (fuel : nat) : M bool :=
  match fuel with
  | O => fun _ => OutOfFuel
  | S fuel' =>
      e <~ get_err ;
      match e with
      | Some _ => ret false
      | None =>
          tok <~ nextTok ;
          if decide (typ tok = tRBRACE) then ret true
          else skip_metatable fuel'
      end
  end.

(** The rows loop of [expectTable].  Its switch has no default: on any other
    item the loop goes round again without consuming anything.  (What the
    [tNAME] case prints is not part of the state.) *)
Fixpoint expectTable_rows (fuel : nat) (toid tscope : string) (tab : Table)
  : M (string * Table) :=
  match fuel with
  | O => fun _ => OutOfFuel
  | S fuel' =>
      tok <~ peekTok ;
      match typ tok with
      | tRBRACE => nextTok ;;; ret (toid, tab)
      | tLSQUARE =>
          '(rowID, rowData) <~ expectRow fuel' tscope ;
          expectTable_rows fuel' toid tscope
            (mkTable (meta tab) (<[rowID := rowData]> (rows tab)))
      | tNAME => nextTok ;;; expectTable_rows fuel' toid tscope tab
      | _ => expectTable_rows fuel' toid tscope tab
      end
  end.

Definition expectTable (fuel : nat) : M (string * Table) :=
  let tab := mkTable ∅ ∅ in
  expect tLBRACE ;;;
  '(toid, tscope) <~ expectOID "c" ;
  let toid := coalesce toid tscope in
  tok <~ peekTok ;
  if decide (typ tok = tLBRACE) then
    nextTok ;;;
    m <~ expectCells fuel ;
    let tab := mkTable m (rows tab) in
    broke <~ skip_metatable fuel ;
    if broke : bool then expectTable_rows fuel toid tscope tab
    else ret (toid, zeroTable)
  else expectTable_rows fuel toid tscope tab.



(** The loop of [expectGroup], with the group's tables so far. *)
Fixpoint expectGroup_loop (fuel : nat) (tabs : gmap string Table)
  : M (gmap string Table) :=
  match fuel with
  | O => fun _ => OutOfFuel
  | S fuel' =>
      tok <~ peekTok ;
      match typ tok with
      | tEOF => ret ∅
      | tGROUPCOMMIT => expect tGROUPCOMMIT ;;; ret tabs
      | tGROUPABORT => expect tGROUPABORT ;;; ret ∅
      | t =>
          tabs' <~ match t with
                   | tLANGLE => expectDict fuel' ;;; ret tabs
                   | tLSQUARE => expectRow fuel' "c" ;;; ret tabs
                   | tLBRACE =>
                       '(toid, tab) <~ expectTable fuel' ;
                       ret (<[toid := tab]> tabs)
                   | _ =>
                       f <~ get_filename ;
                       set_err (ErrUnexpected f tok) ;;; ret tabs
                   end ;
          e <~ get_err ;
          match e with
          | Some _ => ret tabs'
          | None => expectGroup_loop fuel' tabs'
          end
      end
  end.

Definition expectGroup (fuel : nat) : M (gmap string Table) :=
  expect tGROUPSTART ;;;
  expectGroup_loop fuel ∅.

(** The loop of [Parse], with the result map so far. *)
Fixpoint Parse_loop (fuel : nat) (tabs : gmap string Table)
  : M (gmap string Table * option perror) :=
  match fuel with
  | O => fun _ => OutOfFuel
  | S fuel' =>
      tok <~ peekTok ;
      match typ tok with
      | tEOF => e <~ get_err ; ret (tabs, e)
      | t =>
          tabs' <~ match t with
                   | tLANGLE => expectDict fuel' ;;; ret tabs
                   | tLSQUARE => expectRow fuel' "c" ;;; ret tabs
                   | tLBRACE =>
                       '(toid, tab) <~ expectTable fuel' ;
                       ret (<[toid := tab]> tabs)
                   | tGROUPSTART => expectGroup fuel' ;;; ret tabs
                   | _ =>
                       f <~ get_filename ;
                       set_err (ErrUnexpected f tok) ;;; ret tabs
                   end ;
          e <~ get_err ;
          match e with
          | Some _ => ret (tabs', e)
          | None => Parse_loop fuel' tabs'
          end
      end
  end.

Definition Parse (fuel : nat) : M (gmap string Table * option perror) :=
  Parse_loop fuel ∅.

(** [slurp] without the file read: scan and parse a buffer. *)
Definition slurp (fuel : nat) (file inp : string)
  : Res (gmap string Table * option perror) :=
  Parse fuel (NewParser file (newLexer inp)).

(** What a caller can see of a result. *)
Inductive outcome : Type :=
  | Returned (tabs : gmap string Table) (e : option perror)
  | Panicked (v : panic)
  | Cut.

Definition outcome_of (r : Res (gmap string Table * option perror)) : outcome :=
  match r with
  | Ret (tabs, e) _ => Returned tabs e
  | Panic v _ => Panicked v
  | OutOfFuel => Cut
  end.


(** ** Notions the statements below are made of *)

(** [r] is the cut-off, or is [r'] already. *)
Definition le_res {A} (r r' : Res A) : Prop := r = OutOfFuel \/ r = r'.

Definition le_M {A} (m m' : M A) : Prop := forall p, le_res (m p) (m' p).

(** Rounds a state still needs before an item is in the channel. *)
Definition rounds_needed (l : lexer) : nat :=
  match state l with
  | Some lexDefault => remaining l + 2
  | Some lexComment => remaining l + 1
  | Some _ => 1
  | None => 0
  end.

(** [R] relates the parser before a call to the parser after it, however
    the call ends. *)
Definition preserves (R : parser -> parser -> Prop) {A} (m : M A) : Prop :=
  forall p, match m p with
            | Ret _ p' | Panic _ p' => R p p'
            | OutOfFuel => True
            end.

(** An error once recorded is still the recorded one afterwards. *)
Definition sticky (p p' : parser) : Prop :=
  forall e, err p = Some e -> err p' = Some e.

(** The value stored for [id] in namespace [ns], if any. *)
Definition entry (d : gmap string (gmap string string)) (ns id : string)
  : option string :=
  match d !! ns with
  | Some m => m !! id
  | None => None
  end.

(** No (id -> value) entry added, changed or removed. *)
Definition same_entries (p p' : parser) : Prop :=
  forall ns id, entry (dicts p') ns id = entry (dicts p) ns id.

Definition sticky_preserved {A} (m : M A) : Prop :=
  preserves sticky m.

Definition entries_preserved {A} (m : M A) : Prop :=
  preserves same_entries m.

(** What a result says about the recorded error. *)
Definition keeps_error {A} (e : perror) (r : Res A) : Prop :=
  match r with
  | Ret _ p' | Panic _ p' => err p' = Some e
  | OutOfFuel => True
  end.



(** The value of the last cell named [id]. *)
Fixpoint last_value (cs : list (string * string)) (id : string)
  : option string :=
  match cs with
  | [] => None
  | (k, v) :: cs' =>
      match last_value cs' id with
      | Some v' => Some v'
      | None => if decide (k = id) then Some v else None
      end
  end.





(** The body of a group that is cut off: from [p], with the tables [g] the
    group has gathered, the loop of [expectGroup] meets dicts, rows and
    tables, each parsed to its end with no error recorded, and then the end
    of the input, seen in [p']. *)
Inductive group_run : parser -> gmap string Table -> parser -> Prop :=
  | group_eof p g tok p1 :
      peekTok p = Ret tok p1 -> typ tok = tEOF -> group_run p g p1
  | group_dict p g tok p1 fuel p2 p3 :
      peekTok p = Ret tok p1 -> typ tok = tLANGLE ->
      expectDict fuel p1 = Ret tt p2 -> err p2 = None ->
      group_run p2 g p3 -> group_run p g p3
  | group_row p g tok p1 fuel r p2 p3 :
      peekTok p = Ret tok p1 -> typ tok = tLSQUARE ->
      expectRow fuel "c" p1 = Ret r p2 -> err p2 = None ->
      group_run p2 g p3 -> group_run p g p3
  | group_table p g tok p1 fuel toid tab p2 p3 :
      peekTok p = Ret tok p1 -> typ tok = tLBRACE ->
      expectTable fuel p1 = Ret (toid, tab) p2 -> err p2 = None ->
      group_run p2 (<[toid := tab]> g) p3 -> group_run p g p3.

(** The parse of a buffer returns, with no error. *)
Definition returns_without_error (file inp : string) : Prop :=
  exists fuel tabs, outcome_of (slurp fuel file inp) = Returned tabs None.

(** The parse of a buffer returns a Not-hex error. *)
Definition returns_not_hex (file inp : string) : Prop :=
  exists fuel tabs f tok,
    outcome_of (slurp fuel file inp) = Returned tabs (Some (ErrNotHex f tok)).

(** The parser a run leaves, for stating examples. *)
Definition after {A} (r : Res A) (p0 : parser) : parser :=
  match r with
  | Ret _ p | Panic _ p => p
  | OutOfFuel => p0
  end.

(** ** Inputs of the examples *)

Definition literal_example : string :=
  "<(name =Alice)>{10{(owner=Alice)}[20(name=Bob)]}".

Definition redefine_input : string := "<(1=x)(1=y)>".

(** A dict, then a dict whose second cell refers to an id never defined:
    the parser before and after that second construct. *)
Definition bad_dict_input : string := "<(1=x)><(1=y)(a^2)>".

Definition before_bad_dict : parser :=
  after (expectDict 5 (NewParser "f" (newLexer bad_dict_input)))
    (NewParser "f" (newLexer "")).

Definition after_bad_dict : parser :=
  after (expectDict 5 before_bad_dict) before_bad_dict.

(** ** Notions of the further properties *)

(** The slice [l.input[l.start.offset:l.curr.offset]] of [emit] is in range. *)
Definition in_bounds (l : lexer) : Prop :=
  (offset (start l) <= offset (curr l) <= String.length (input l))%nat.

(** From [l] to [l'] the scanner has kept its input and not gone back, and
    is in bounds. *)
Definition moved_on (l l' : lexer) : Prop :=
  input l' = input l /\ (offset (curr l) <= offset (curr l'))%nat /\
  in_bounds l'.

(** An item after which the scanner sends nothing more. *)
Definition ends_scan (it : item) : Prop := typ it = tEOF \/ typ it = tERROR.

(** What one run of a state sends, and whether it returns the nil state. *)
Definition run_shape (l : lexer) (r : lexer * option stateFn) : Prop :=
  exists its,
    items (fst r) = items l ++ its /\
    Forall (fun it => ~ ends_scan it) (removelast its) /\
    (snd r = None <-> exists it, last its = Some it /\ ends_scan it).

(** A byte [lexDefault] hands to [lexName]. *)
Definition name_start (r : rune) : bool :=
  (isAlpha r || isDigit r || (r =? rune_of "_"))%Z.

(** A measure of what the scanner still has to do: every run of a state
    lowers twice the bytes left plus [rank] of the state it returns. *)
Definition rank (s : option stateFn) : nat :=
  match s with
  | None => 0
  | Some lexDefault => 2
  | Some _ => 1
  end.

Definition work (l : lexer) : nat :=
  length (items l) + 3 * (2 * remaining l + rank (state l)).

(** A scanner on its way: only the last item in the channel can be the end or
    an error, the state is nil exactly when it is, and [lexName] is the state
    only in front of a name. *)
Definition scanning (l : lexer) : Prop :=
  Forall (fun it => ~ ends_scan it) (removelast (items l)) /\
  (state l = None <-> exists it, last (items l) = Some it /\ ends_scan it) /\
  (state l = Some lexName -> name_start (peek l) = true).

(** A dump that ran to its end: its last line is the end or an error, and no
    line before it is. *)
Definition dump_complete (ts : list (itemType * string)) : Prop :=
  exists toks lst,
    ts = toks ++ [lst] /\
    (fst lst = tEOF \/ fst lst = tERROR) /\
    Forall (fun t => fst t <> tEOF /\ fst t <> tERROR) toks.





(** Every entry of the dictionaries before is still an entry after, with
    some value. *)
Definition grows (p p' : parser) : Prop :=
  forall ns id, is_Some (entry (dicts p) ns id) ->
                is_Some (entry (dicts p') ns id).

(** Whatever [m] returns satisfies [Q]. *)
Definition yields {A} (m : M A) (Q : A -> Prop) : Prop :=
  forall p a p', m p = Ret a p' -> Q a.

(** Row ids that are hex ids (or empty, after an error), and table keys
    [id:scope] with such an id. *)
Definition hex_rows (tab : Table) : Prop :=
  forall r row, rows tab !! r = Some row -> all_hex r = true.

Definition hex_key (k : string) : Prop :=
  exists id scope, k = coalesce id scope /\ all_hex id = true.

Definition well_keyed (tabs : gmap string Table) : Prop :=
  forall k tab, tabs !! k = Some tab -> hex_key k /\ hex_rows tab.

(** ** More fuel never changes a result *)

Section Fuel.

Lemma le_M_refl {A} (m : M A) : le_M m m.
Proof. intros p. right. reflexivity. Qed.

Lemma le_M_cut {A} (m : M A) : le_M (fun _ => OutOfFuel) m.
Proof. intros p. left. reflexivity. Qed.

Lemma le_M_bind {A B} (m m' : M A) (k k' : A -> M B) :
  le_M m m' -> (forall a, le_M (k a) (k' a)) -> le_M (bind m k) (bind m' k').
Proof.
  intros Hm Hk p. unfold bind.
  destruct (Hm p) as [-> | ->]; [left; reflexivity |].
  destruct (m' p); try (right; reflexivity). apply Hk.
Qed.

Ltac mono_step :=
  match goal with
  | |- le_M ?m ?m => apply le_M_refl
  | |- le_M (fun _ => OutOfFuel) _ => apply le_M_cut
  | |- le_M (bind _ _) (bind _ _) => apply le_M_bind; [| intros ?]
  | |- le_M (match ?x with _ => _ end) _ => destruct x
  | H : forall m : nat, _ |- _ => solve [apply H; lia]
  | H : forall n m : nat, _ |- _ => solve [apply H; lia]
  end.
Ltac mono := repeat mono_step.

Lemma expectCells_loop_mono n m out :
  (n <= m)%nat -> le_M (expectCells_loop n out) (expectCells_loop m out).
Proof.
  revert m out. induction n as [| n IH]; intros m out Hle; [apply le_M_cut |].
  destruct m as [| m]; [lia |]. simpl. mono.
Qed.

Lemma expectCells_mono n m :
  (n <= m)%nat -> le_M (expectCells n) (expectCells m).
Proof. apply expectCells_loop_mono. Qed.

Lemma expectMetadict_mono n m :
  (n <= m)%nat -> le_M (expectMetadict n) (expectMetadict m).
Proof.
  intros Hle. pose proof (expectCells_mono n m Hle).
  unfold expectMetadict. mono. assumption.
Qed.

Lemma expectDict_scope_mono n m :
  (n <= m)%nat -> le_M (expectDict_scope n) (expectDict_scope m).
Proof.
  intros Hle. pose proof (expectMetadict_mono n m Hle).
  unfold expectDict_scope. mono. assumption.
Qed.

Lemma expectDict_mono n m :
  (n <= m)%nat -> le_M (expectDict n) (expectDict m).
Proof.
  intros Hle. pose proof (expectDict_scope_mono n m Hle).
  pose proof (expectCells_mono n m Hle).
  unfold expectDict. mono; assumption.
Qed.

Lemma expectRow_mono n m s :
  (n <= m)%nat -> le_M (expectRow n s) (expectRow m s).
Proof.
  intros Hle. pose proof (expectCells_mono n m Hle).
  unfold expectRow. mono; assumption.
Qed.

Lemma skip_metatable_mono n m :
  (n <= m)%nat -> le_M (skip_metatable n) (skip_metatable m).
Proof.
  revert m. induction n as [| n IH]; intros m Hle; [apply le_M_cut |].
  destruct m as [| m]; [lia |]. simpl. mono.
Qed.

Lemma expectTable_rows_mono n m toid tscope tab :
  (n <= m)%nat ->
  le_M (expectTable_rows n toid tscope tab)
    (expectTable_rows m toid tscope tab).
Proof.
  revert m tab. induction n as [| n IH]; intros m tab Hle; [apply le_M_cut |].
  destruct m as [| m]; [lia |].
  assert (Hr : forall s, le_M (expectRow n s) (expectRow m s))
    by (intros s; apply expectRow_mono; lia).
  simpl. mono; try apply Hr.
Qed.

Lemma expectTable_mono n m :
  (n <= m)%nat -> le_M (expectTable n) (expectTable m).
Proof.
  intros Hle. pose proof (expectCells_mono n m Hle).
  pose proof (skip_metatable_mono n m Hle).
  assert (forall a b c,
             le_M (expectTable_rows n a b c) (expectTable_rows m a b c))
    by (intros; apply expectTable_rows_mono; exact Hle).
  unfold expectTable. mono; auto.
Qed.

Lemma expectGroup_loop_mono n m tabs :
  (n <= m)%nat -> le_M (expectGroup_loop n tabs) (expectGroup_loop m tabs).
Proof.
  revert m tabs. induction n as [| n IH]; intros m tabs Hle; [apply le_M_cut |].
  destruct m as [| m]; [lia |].
  assert (le_M (expectDict n) (expectDict m)) by (apply expectDict_mono; lia).
  assert (forall s, le_M (expectRow n s) (expectRow m s))
    by (intros s; apply expectRow_mono; lia).
  assert (le_M (expectTable n) (expectTable m))
    by (apply expectTable_mono; lia).
  simpl. mono; auto.
Qed.

Lemma expectGroup_mono n m :
  (n <= m)%nat -> le_M (expectGroup n) (expectGroup m).
Proof.
  intros Hle. pose proof (fun t => expectGroup_loop_mono n m t Hle).
  unfold expectGroup. mono; auto.
Qed.

Lemma Parse_loop_mono n m tabs :
  (n <= m)%nat -> le_M (Parse_loop n tabs) (Parse_loop m tabs).
Proof.
  revert m tabs. induction n as [| n IH]; intros m tabs Hle; [apply le_M_cut |].
  destruct m as [| m]; [lia |].
  assert (le_M (expectDict n) (expectDict m)) by (apply expectDict_mono; lia).
  assert (forall s, le_M (expectRow n s) (expectRow m s))
    by (intros s; apply expectRow_mono; lia).
  assert (le_M (expectTable n) (expectTable m))
    by (apply expectTable_mono; lia).
  assert (le_M (expectGroup n) (expectGroup m))
    by (apply expectGroup_mono; lia).
  simpl. mono; auto.
Qed.

Lemma slurp_mono n m file inp :
  (n <= m)%nat -> le_res (slurp n file inp) (slurp m file inp).
Proof. intros Hle. apply Parse_loop_mono, Hle. Qed.

(** Two runs that both finish give the same result. *)
Lemma slurp_agree n m file inp :
  slurp n file inp <> OutOfFuel -> slurp m file inp <> OutOfFuel ->
  slurp n file inp = slurp m file inp.
Proof.
  intros Hn Hm. destruct (Nat.le_ge_cases n m) as [Hle | Hle].
  - destruct (slurp_mono n m file inp Hle); [contradiction | assumption].
  - destruct (slurp_mono m n file inp Hle); [contradiction | congruence].
Qed.

End Fuel.

(** ** The scanner always answers *)

Section Scanner.

Local Open Scope Z_scope.

Lemma peek_at_end l : remaining l = 0%nat -> peek l = EOF.
Proof.
  unfold remaining, peek. intros H.
  destruct (Nat.leb_spec (String.length (input l)) (offset (curr l)));
    [reflexivity | lia].
Qed.

Lemma peek_not_EOF l : peek l <> EOF -> (0 < remaining l)%nat.
Proof.
  intros H. destruct (remaining l) eqn:E; [| lia].
  elim H. apply peek_at_end, E.
Qed.

Lemma next_remaining_le l : (remaining (snd (next l)) <= remaining l)%nat.
Proof.
  unfold next, remaining.
  destruct (Nat.leb_spec (String.length (input l)) (offset (curr l)));
    simpl; [lia |].
  destruct (_ =? _); simpl; lia.
Qed.

Lemma next_remaining l :
  fst (next l) <> EOF -> S (remaining (snd (next l))) = remaining l.
Proof.
  unfold next, remaining.
  destruct (Nat.leb_spec (String.length (input l)) (offset (curr l)));
    simpl; [congruence |].
  intros _. destruct (_ =? _); simpl; lia.
Qed.

Lemma next_peek l : (0 < remaining l)%nat ->
  S (remaining (snd (next l))) = remaining l.
Proof.
  unfold next, remaining. intros H.
  destruct (Nat.leb_spec (String.length (input l)) (offset (curr l)));
    simpl; [lia |].
  destruct (_ =? _); simpl; lia.
Qed.

Lemma next_items l : items (snd (next l)) = items l.
Proof. unfold next. destruct (_ <=? _)%nat; reflexivity. Qed.

(** The loops: they only move forward and send nothing. *)

Lemma gatherID_loop_remaining n id l :
  (remaining (snd (gatherID_loop n id l)) <= remaining l)%nat.
Proof.
  revert id l. induction n as [| n IH]; intros id l; simpl;
    destruct (negb (isHex (peek l))); simpl; try lia.
  etransitivity; [apply IH | apply next_remaining_le].
Qed.

Lemma gatherID_loop_items n id l :
  items (snd (gatherID_loop n id l)) = items l.
Proof.
  revert id l. induction n as [| n IH]; intros id l; simpl;
    destruct (negb (isHex (peek l))); simpl; try reflexivity.
  rewrite IH. apply next_items.
Qed.

Lemma lexComment_loop_remaining n l :
  (remaining (lexComment_loop n l) <= remaining l)%nat.
Proof.
  revert l. induction n as [| n IH]; intros l; simpl;
    destruct (_ || _); try lia.
  etransitivity; [apply IH | apply next_remaining_le].
Qed.

Lemma lexComment_loop_items n l : items (lexComment_loop n l) = items l.
Proof.
  revert l. induction n as [| n IH]; intros l; simpl;
    destruct (_ || _); try reflexivity.
  rewrite IH. apply next_items.
Qed.

Lemma lexLiteral_loop_items n esc l : items (lexLiteral_loop n esc l) = items l.
Proof.
  revert esc l. induction n as [| n IH]; intros esc l; simpl;
    destruct (_ =? _); try reflexivity;
    destruct (negb esc && _); try reflexivity.
  rewrite IH. apply next_items.
Qed.

Lemma lexName_loop_items n first l : items (lexName_loop n first l) = items l.
Proof.
  revert first l. induction n as [| n IH]; intros first l; simpl;
    destruct (negb _); try reflexivity.
  rewrite IH. apply next_items.
Qed.

Lemma emit_items t l : items (emit t l) <> [].
Proof. unfold emit. simpl. destruct (items l); discriminate. Qed.

Lemma emitErrorf_items msg l : items (emitErrorf msg l) <> [].
Proof. unfold emitErrorf. simpl. destruct (items l); discriminate. Qed.

Lemma lexer_expect_loop_false whole s l l1 :
  lexer_expect_loop whole s l = (false, l1) -> items l1 <> [].
Proof.
  revert l. induction s as [| c s IH]; intros l; simpl; [discriminate |].
  destruct (next l) as [r l0]. destruct (negb _).
  - intros [= <-]. apply emitErrorf_items.
  - apply IH.
Qed.

#[local] Hint Resolve emit_items emitErrorf_items : core.

Lemma run_lexGroup_items l : items (fst (run_lexGroup l)) <> [].
Proof.
  unfold run_lexGroup, lexer_expect, syntaxError.
  destruct (lexer_expect_loop _ _ l) as [[] l1] eqn:E1; cbn [negb fst];
    [| eapply lexer_expect_loop_false; eassumption].
  destruct (next l1) as [r l2].
  destruct (r =? rune_of "{").
  { destruct (gatherID l2) as [id l3].
    destruct (_ =? _)%nat; cbn [fst]; auto.
    destruct (lexer_expect_loop _ _ l3) as [[] l4] eqn:E2; cbn [negb fst];
      [auto | eapply lexer_expect_loop_false; eassumption]. }
  destruct (r =? rune_of "}"); cbn [fst]; auto.
  destruct (peek l2 =? rune_of "~").
  { destruct (lexer_expect_loop _ _ l2) as [[] l3] eqn:E2; cbn [negb fst];
      [auto | eapply lexer_expect_loop_false; eassumption]. }
  destruct (gatherID l2) as [id l3].
  destruct (_ =? _)%nat; cbn [fst]; auto.
  destruct (lexer_expect_loop _ _ l3) as [[] l4] eqn:E2; cbn [negb fst];
    [auto | eapply lexer_expect_loop_false; eassumption].
Qed.

Lemma run_lexLiteral_items l : items (fst (run_lexLiteral l)) <> [].
Proof.
  unfold run_lexLiteral. destruct (next l). destruct (negb _); cbn [fst]; auto.
Qed.

Lemma run_lexName_items l : items (fst (run_lexName l)) <> [].
Proof. unfold run_lexName. cbn [fst]. auto. Qed.

(** A comment that ends well has taken its two slashes. *)
Lemma run_lexComment_progress l :
  items (fst (run_lexComment l)) <> [] \/
  (snd (run_lexComment l) = Some lexDefault /\
   (remaining (fst (run_lexComment l)) + 2 <= remaining l)%nat).
Proof.
  unfold run_lexComment.
  pose proof (next_remaining l) as H1.
  destruct (next l) as [r l1]. cbn [fst snd] in H1.
  destruct (Z.eqb_spec r (rune_of "/")); cbn [negb fst snd]; [| left; auto].
  pose proof (next_remaining l1) as H2.
  destruct (next l1) as [r' l2]. cbn [fst snd] in H2.
  destruct (Z.eqb_spec r' (rune_of "/")); cbn [negb fst snd]; [| left; auto].
  right. split; [reflexivity |].
  assert (r <> EOF) by (subst r; discriminate).
  assert (r' <> EOF) by (subst r'; discriminate).
  specialize (H1 ltac:(assumption)). specialize (H2 ltac:(assumption)).
  pose proof (lexComment_loop_remaining (remaining l2) l2).
  unfold remaining in *. simpl. lia.
Qed.

(** The default state sends an item, or hands over to another state
    without going back. *)
Lemma lexDefault_loop_progress n l :
  (remaining l <= n)%nat ->
  items (fst (lexDefault_loop n l)) <> [] \/
  ((remaining (fst (lexDefault_loop n l)) <= remaining l)%nat /\
   exists s, snd (lexDefault_loop n l) = Some s /\ s <> lexDefault).
Proof.
  assert (Hand : forall (l : lexer) s, s <> lexDefault ->
    items (fst (l, Some s)) <> [] \/
    ((remaining (fst (l, Some s)) <= remaining l)%nat /\
     exists s', snd (l, Some s) = Some s' /\ s' <> lexDefault)).
  { intros l0 s Hs. right. split; [cbn [fst]; lia |].
    exists s. split; [reflexivity | exact Hs]. }
  revert l. induction n as [| n IH]; intros l Hn; simpl.
  - rewrite (peek_at_end l) by lia. rewrite Z.eqb_refl. left. cbn [fst]. auto.
  - destruct (Z.eqb_spec (peek l) EOF) as [| Hp]; [left; cbn [fst]; auto |].
    apply peek_not_EOF in Hp.
    destruct (isSpace (peek l)).
    + pose proof (next_peek l Hp) as Hr.
      destruct (IH (with_start (snd (next l)) (curr (snd (next l)))))
        as [H | [H1 H2]].
      * unfold remaining in *. simpl. lia.
      * left. exact H.
      * right. split; [| exact H2].
        unfold remaining in *. simpl in *. lia.
    + destruct (singles (peek l)); [left; cbn [fst]; auto |].
      destruct (_ =? rune_of "^").
      { destruct (gatherID _). unfold syntaxError.
        destruct (_ =? _)%nat; left; cbn [fst]; auto. }
      destruct (_ =? rune_of "/"); [apply Hand; discriminate |].
      destruct (_ =? rune_of "="); [apply Hand; discriminate |].
      destruct (_ || _); [apply Hand; discriminate |].
      destruct (_ =? rune_of "@"); [apply Hand; discriminate |].
      left. cbn [fst syntaxError]. auto.
Qed.

(** *** The rounds given to the scanning loops are enough

    A loop that still goes on has a byte to read, so the round it would
    miss with [remaining l] rounds is never asked for: any two numbers of
    rounds from [remaining l] on give the same result. *)

Lemma next_rounds l n :
  peek l <> EOF -> (remaining l <= S n)%nat ->
  (remaining (snd (next l)) <= n)%nat.
Proof.
  intros Hp Hn. apply peek_not_EOF in Hp.
  pose proof (next_peek l Hp). lia.
Qed.

Lemma gatherID_loop_rounds n m id l :
  (remaining l <= n)%nat -> (remaining l <= m)%nat ->
  gatherID_loop n id l = gatherID_loop m id l.
Proof.
  revert m id l. induction n as [| n IH]; intros [| m] id l Hn Hm; simpl;
    try reflexivity;
    try (rewrite (peek_at_end l) by lia; reflexivity).
  destruct (isHex (peek l)) eqn:E; [| reflexivity]. simpl.
  assert (peek l <> EOF) by (intros H; rewrite H in E; discriminate).
  apply IH; apply next_rounds; assumption.
Qed.

Lemma lexLiteral_loop_rounds n m esc l :
  (remaining l <= n)%nat -> (remaining l <= m)%nat ->
  lexLiteral_loop n esc l = lexLiteral_loop m esc l.
Proof.
  revert m esc l. induction n as [| n IH]; intros [| m] esc l Hn Hm; simpl;
    try reflexivity;
    try (rewrite (peek_at_end l) by lia; reflexivity).
  destruct (Z.eqb_spec (peek l) EOF); [reflexivity |].
  destruct (negb esc && _); [reflexivity |].
  apply IH; apply next_rounds; assumption.
Qed.

Lemma lexComment_loop_rounds n m l :
  (remaining l <= n)%nat -> (remaining l <= m)%nat ->
  lexComment_loop n l = lexComment_loop m l.
Proof.
  revert m l. induction n as [| n IH]; intros [| m] l Hn Hm; simpl;
    try reflexivity;
    try (rewrite (peek_at_end l) by lia; reflexivity).
  destruct (Z.eqb_spec (peek l) EOF); [reflexivity |].
  destruct (_ =? _); [reflexivity |]. simpl.
  apply IH; apply next_rounds; assumption.
Qed.

Lemma lexName_loop_rounds n m first l :
  (remaining l <= n)%nat -> (remaining l <= m)%nat ->
  lexName_loop n first l = lexName_loop m first l.
Proof.
  revert m first l. induction n as [| n IH]; intros [| m] first l Hn Hm; simpl;
    try reflexivity;
    try (rewrite (peek_at_end l) by lia; destruct first; reflexivity).
  destruct (negb _) eqn:E; [reflexivity |].
  assert (peek l <> EOF).
  { intros H. rewrite H in E. destruct first; discriminate. }
  apply IH; apply next_rounds; assumption.
Qed.

Lemma lexDefault_loop_rounds n m l :
  (remaining l <= n)%nat -> (remaining l <= m)%nat ->
  lexDefault_loop n l = lexDefault_loop m l.
Proof.
  revert m l. induction n as [| n IH]; intros [| m] l Hn Hm; simpl;
    try reflexivity;
    try (rewrite (peek_at_end l) by lia; reflexivity).
  destruct (Z.eqb_spec (peek l) EOF); [reflexivity |].
  destruct (isSpace (peek l)); [| reflexivity].
  pose proof (next_rounds l n ltac:(assumption) Hn).
  pose proof (next_rounds l m ltac:(assumption) Hm).
  apply IH; unfold remaining in *; simpl; assumption.
Qed.

(** *** The channel never holds more than its two items *)

Lemma emit_length t l : length (items (emit t l)) = S (length (items l)).
Proof. unfold emit. simpl. rewrite length_app. simpl. lia. Qed.

Lemma emitErrorf_length msg l :
  length (items (emitErrorf msg l)) = S (length (items l)).
Proof. unfold emitErrorf. simpl. rewrite length_app. simpl. lia. Qed.

Lemma lexer_expect_loop_length whole s l :
  length (items (snd (lexer_expect_loop whole s l))) =
  (length (items l) + if fst (lexer_expect_loop whole s l) then 0 else 1)%nat.
Proof.
  revert l. induction s as [| c s IH]; intros l; simpl; [lia |].
  pose proof (f_equal (@length _) (next_items l)) as Hn.
  destruct (next l) as [r l1].
  cbn [snd] in Hn.
  destruct (negb _); cbn [fst snd].
  - rewrite emitErrorf_length, Hn. lia.
  - rewrite IH, Hn. reflexivity.
Qed.

Lemma run_lexGroup_le_1 l :
  (length (items (fst (run_lexGroup l))) <= length (items l) + 1)%nat.
Proof.
  unfold run_lexGroup, lexer_expect, syntaxError, gatherID.
  pose proof (lexer_expect_loop_length "@$$" "@$$" l) as H1.
  destruct (lexer_expect_loop _ _ l) as [[] l1]; cbn [negb fst snd] in *;
    [| lia].
  pose proof (f_equal (@length _) (next_items l1)) as H2.
  destruct (next l1) as [r l2].
  cbn [snd] in H2.
  destruct (r =? rune_of "{").
  { pose proof (f_equal (@length _)
                  (gatherID_loop_items (remaining l2) "" l2)) as H3.
    destruct (gatherID_loop _ _ l2) as [id l3]. cbn [snd] in H3.
    destruct (_ =? _)%nat; cbn [fst].
    - rewrite emitErrorf_length. lia.
    - pose proof (lexer_expect_loop_length "{@" "{@" l3) as H4.
      destruct (lexer_expect_loop _ _ l3) as [[] l4]; cbn [negb fst snd] in *;
        [rewrite emit_length |]; lia. }
  destruct (r =? rune_of "}"); cbn [fst]; [| rewrite emitErrorf_length; lia].
  destruct (peek l2 =? rune_of "~").
  { pose proof (lexer_expect_loop_length "~~}@" "~~}@" l2) as H4.
    destruct (lexer_expect_loop _ _ l2) as [[] l4]; cbn [negb fst snd] in *;
      [rewrite emit_length |]; lia. }
  pose proof (f_equal (@length _)
                (gatherID_loop_items (remaining l2) "" l2)) as H3.
  destruct (gatherID_loop _ _ l2) as [id l3]. cbn [snd] in H3.
  destruct (_ =? _)%nat; cbn [fst].
  - rewrite emitErrorf_length. lia.
  - pose proof (lexer_expect_loop_length "}@" "}@" l3) as H4.
    destruct (lexer_expect_loop _ _ l3) as [[] l4]; cbn [negb fst snd] in *;
      [rewrite emit_length |]; lia.
Qed.

Lemma lexDefault_tail_le_2 l :
  (length (items (fst
     match singles (peek l) with
     | Some t => (emit t (snd (next l)), Some lexDefault)
     | None =>
         if (peek l =? rune_of "^")%Z then
           let l1 := emit tCARET (snd (next l)) in
           let '(id, l2) := gatherID l1 in
           if (String.length id =? 0)%nat then syntaxError l2
           else (emit tNAME l2, Some lexDefault)
         else if (peek l =? rune_of "/")%Z then (l, Some lexComment)
         else if (peek l =? rune_of "=")%Z then (l, Some lexLiteral)
         else if isAlpha (peek l) || isDigit (peek l)
                 || (peek l =? rune_of "_")%Z then (l, Some lexName)
         else if (peek l =? rune_of "@")%Z then (l, Some lexGroup)
         else syntaxError l
     end)) <= length (items l) + 2)%nat.
Proof.
  destruct (singles (peek l));
    [cbn [fst]; rewrite emit_length, next_items; lia |].
  destruct (_ =? rune_of "^").
  { unfold gatherID, syntaxError.
    pose proof (f_equal (@length _)
                  (gatherID_loop_items
                     (remaining (emit tCARET (snd (next l)))) ""
                     (emit tCARET (snd (next l))))) as H.
    destruct (gatherID_loop _ _ _) as [id l2]. cbn [snd] in H.
    rewrite emit_length, next_items in H.
    destruct (_ =? _)%nat; cbn [fst];
      [rewrite emitErrorf_length | rewrite emit_length]; lia. }
  destruct (_ =? rune_of "/"); [cbn [fst]; lia |].
  destruct (_ =? rune_of "="); [cbn [fst]; lia |].
  destruct (_ || _); [cbn [fst]; lia |].
  destruct (_ =? rune_of "@"); [cbn [fst]; lia |].
  unfold syntaxError. cbn [fst]. rewrite emitErrorf_length. lia.
Qed.

Lemma lexDefault_loop_le_2 n l :
  (length (items (fst (lexDefault_loop n l))) <= length (items l) + 2)%nat.
Proof.
  revert l. induction n as [| n IH]; intros l; simpl;
    (destruct (peek l =? EOF); [cbn [fst]; rewrite emit_length; lia |]).
  - destruct (isSpace (peek l)); [cbn [fst]; lia |].
    apply lexDefault_tail_le_2.
  - destruct (isSpace (peek l)); [| apply lexDefault_tail_le_2].
    etransitivity; [apply IH |]. simpl. rewrite next_items. lia.
Qed.

(** No state sends more than two items in one run; [nextItem] runs a state
    only on an empty channel, so a send never blocks. *)
Lemma run_items_le_2 s l :
  (length (items (fst (run s l))) <= length (items l) + 2)%nat.
Proof.
  destruct s; cbn [run].
  - apply lexDefault_loop_le_2.
  - unfold run_lexLiteral. pose proof (f_equal (@length _) (next_items l)) as H.
    destruct (next l) as [r l1]. cbn [snd] in H.
    destruct (negb _); cbn [fst].
    + rewrite emitErrorf_length. lia.
    + rewrite emit_length, lexLiteral_loop_items, emit_length. lia.
  - unfold run_lexComment. pose proof (f_equal (@length _) (next_items l)) as H.
    destruct (next l) as [r l1]. cbn [snd] in H.
    destruct (negb _); cbn [fst]; [rewrite emitErrorf_length; lia |].
    pose proof (f_equal (@length _) (next_items l1)) as H'.
    destruct (next l1) as [r' l2]. cbn [snd] in H'.
    destruct (negb _); cbn [fst]; [rewrite emitErrorf_length; lia |].
    cbn [items with_start]. rewrite lexComment_loop_items. lia.
  - unfold run_lexName. cbn [fst].
    rewrite emit_length, lexName_loop_items. lia.
  - pose proof (run_lexGroup_le_1 l). lia.
Qed.

Lemma nextItem_loop_not_stuck n l :
  items l <> [] \/ (rounds_needed l <= n)%nat ->
  nextItem_loop n l <> LStuck.
Proof.
  revert l. induction n as [| n IH]; intros l H.
  - simpl. destruct (items l) eqn:Ei; [| discriminate].
    destruct H as [H | H]; [congruence |].
    unfold rounds_needed in H.
    destruct (state l) as [[] |]; try discriminate; lia.
  - simpl. destruct (items l) eqn:Ei; [| discriminate].
    destruct H as [H | H]; [congruence |].
    unfold rounds_needed in H.
    destruct (state l) as [s |] eqn:Es; [| discriminate].
    destruct (run s l) as [l1 s1] eqn:Er.
    apply IH. destruct s; simpl in Er.
    + pose proof (lexDefault_loop_progress (remaining l) l (Nat.le_refl _))
        as P.
      unfold run_lexDefault in Er. rewrite Er in P. simpl in P.
      destruct P as [P | [P1 (s & -> & P2)]]; [left; exact P |].
      right. unfold rounds_needed. simpl.
      unfold remaining in *. simpl.
      destruct s; try congruence; lia.
    + pose proof (run_lexLiteral_items l) as P. rewrite Er in P. left. exact P.
    + pose proof (run_lexComment_progress l) as P. rewrite Er in P. simpl in P.
      destruct P as [P | [-> P]]; [left; exact P |].
      right. unfold rounds_needed. simpl. unfold remaining in *. simpl. lia.
    + pose proof (run_lexName_items l) as P. rewrite Er in P. left. exact P.
    + pose proof (run_lexGroup_items l) as P. rewrite Er in P. left. exact P.
Qed.

(** [nextItem] gives an item or calls the nil state; its rounds suffice. *)
Lemma nextItem_not_stuck l : nextItem l <> LStuck.
Proof.
  apply nextItem_loop_not_stuck. right.
  unfold rounds_needed. destruct (state l) as [[] |]; lia.
Qed.

End Scanner.

(** ** What the productions leave alone

    A relation [R] between the parser before and after a call that holds
    across scanning, across creating an empty dictionary, and across
    recording an error where none was recorded, holds across every
    production below the group level that does not write dictionary
    entries. *)

Create HintDb pres.

Section Preserved.

Variable R : parser -> parser -> Prop.
Hypothesis R_refl : forall p, R p p.
Hypothesis R_trans : forall p q r, R p q -> R q r -> R p r.
Hypothesis R_lex : forall p l, R p (with_lex p l).
Hypothesis R_peeked : forall p t, R p (with_peeked p t).
Hypothesis R_err : forall p e, err p = None -> R p (with_err p (Some e)).
Hypothesis R_dict : forall p ns,
  dicts p !! ns = None -> R p (with_dicts p (<[ns := ∅]> (dicts p))).

Lemma preserves_ret {A} (a : A) : preserves R (ret a).
Proof. intros p. apply R_refl. Qed.

Lemma preserves_bind {A B} (m : M A) (k : A -> M B) :
  preserves R m -> (forall a, preserves R (k a)) -> preserves R (bind m k).
Proof.
  intros Hm Hk p. unfold bind. specialize (Hm p).
  destruct (m p) as [a p1 | v p1 |]; auto.
  specialize (Hk a p1). destruct (k a p1); eauto.
Qed.

Lemma preserves_cut {A} : preserves R (fun _ => @OutOfFuel A).
Proof. intros p. exact I. Qed.

Lemma preserves_get_err : preserves R get_err.
Proof. intros p. apply R_refl. Qed.

Lemma preserves_get_filename : preserves R get_filename.
Proof. intros p. apply R_refl. Qed.

Lemma preserves_lex_nextItem : preserves R lex_nextItem.
Proof. intros p. unfold lex_nextItem. destruct (nextItem (lex p)); auto. Qed.

Lemma preserves_peekTok : preserves R peekTok.
Proof.
  intros p. unfold peekTok. destruct (peeked p); [apply R_refl |].
  unfold bind. pose proof (preserves_lex_nextItem p) as H.
  destruct (lex_nextItem p); eauto.
Qed.

Lemma preserves_nextTok : preserves R nextTok.
Proof.
  intros p. unfold nextTok. destruct (peeked p); [apply R_peeked |].
  apply preserves_lex_nextItem.
Qed.

Lemma nextTok_err p :
  match nextTok p with
  | Ret _ p' | Panic _ p' => err p' = err p
  | OutOfFuel => True
  end.
Proof.
  unfold nextTok, lex_nextItem. destruct (peeked p); [reflexivity |].
  destruct (nextItem (lex p)); reflexivity.
Qed.

Lemma preserves_expect t : preserves R (expect t).
Proof.
  intros p. unfold expect. destruct (err p) eqn:E; [apply R_refl |].
  unfold bind. pose proof (preserves_nextTok p) as H.
  pose proof (nextTok_err p) as He.
  destruct (nextTok p) as [tok p1 | |]; auto.
  destruct (decide (typ tok <> t)); [| exact H].
  unfold set_err, do_panic. eapply R_trans; [exact H |].
  apply R_err. congruence.
Qed.

Lemma preserves_dict ns : preserves R (dict ns).
Proof.
  intros p. unfold dict. destruct (dicts p !! ns) eqn:E; [apply R_refl |].
  apply R_dict, E.
Qed.

Lemma preserves_resolve id ns : preserves R (resolve id ns).
Proof.
  intros p. unfold resolve. destruct (err p) eqn:E; [apply R_refl |].
  unfold bind, dict.
  destruct (dicts p !! ns) as [d |] eqn:Ed.
  - destruct (d !! id); [apply R_refl |]. unfold set_err, ret.
    apply R_err, E.
  - rewrite lookup_empty. unfold set_err, ret.
    eapply R_trans; [apply R_dict, Ed | apply R_err, E].
Qed.

Lemma preserves_expectID : preserves R expectID.
Proof.
  intros p. unfold expectID, bind.
  pose proof (preserves_expect tNAME p) as H.
  destruct (expect tNAME p) as [tok p1 | |]; auto.
  unfold get_err. destruct (err p1) eqn:E; [exact H |].
  destruct (all_hex (val tok)); [exact H |].
  unfold get_filename, set_err, ret.
  eapply R_trans; [exact H | apply R_err, E].
Qed.

#[local] Hint Resolve preserves_ret preserves_cut preserves_get_err
  preserves_get_filename preserves_peekTok preserves_nextTok
  preserves_expect preserves_resolve preserves_expectID preserves_dict
  : pres.

Ltac pres_step :=
  match goal with
  | |- preserves _ (bind _ _) => apply preserves_bind; [| intros ?]
  | |- preserves _ (match ?x with _ => _ end) => destruct x
  | |- preserves _ _ => solve [auto with pres]
  end.
Ltac pres := repeat pres_step.

Lemma preserves_expectName : preserves R expectName.
Proof. unfold expectName. pres. Qed.

Lemma preserves_expectRef ns : preserves R (expectRef ns).
Proof. unfold expectRef. pres. Qed.
#[local] Hint Resolve preserves_expectName preserves_expectRef : pres.

Lemma preserves_expectOID ns : preserves R (expectOID ns).
Proof. unfold expectOID. pres. Qed.

Lemma preserves_expectCell : preserves R expectCell.
Proof. unfold expectCell. pres. Qed.
#[local] Hint Resolve preserves_expectOID preserves_expectCell : pres.

Lemma preserves_expectCells_loop fuel out :
  preserves R (expectCells_loop fuel out).
Proof.
  revert out. induction fuel as [| fuel IH]; intros out; simpl; pres.
Qed.

Lemma preserves_expectCells fuel : preserves R (expectCells fuel).
Proof. apply preserves_expectCells_loop. Qed.
#[local] Hint Resolve preserves_expectCells : pres.

Lemma preserves_expectMetadict fuel : preserves R (expectMetadict fuel).
Proof. unfold expectMetadict. pres. Qed.
#[local] Hint Resolve preserves_expectMetadict : pres.

Lemma preserves_expectDict_scope fuel : preserves R (expectDict_scope fuel).
Proof. unfold expectDict_scope. pres. Qed.

Lemma preserves_expectRow fuel s : preserves R (expectRow fuel s).
Proof. unfold expectRow. pres. Qed.
#[local] Hint Resolve preserves_expectDict_scope preserves_expectRow : pres.

Lemma preserves_skip_metatable fuel : preserves R (skip_metatable fuel).
Proof. induction fuel as [| fuel IH]; simpl; pres. Qed.

Lemma preserves_expectTable_rows fuel toid tscope tab :
  preserves R (expectTable_rows fuel toid tscope tab).
Proof.
  revert tab. induction fuel as [| fuel IH]; intros tab; simpl; pres.
Qed.
#[local] Hint Resolve preserves_skip_metatable preserves_expectTable_rows
  : pres.

Lemma preserves_expectTable fuel : preserves R (expectTable fuel).
Proof. unfold expectTable. pres. Qed.

End Preserved.

(** ** The sticky error and the dictionary entries *)

Section Instances.

Lemma sticky_refl p : sticky p p.
Proof. intros e H. exact H. Qed.

Lemma sticky_trans p q r : sticky p q -> sticky q r -> sticky p r.
Proof. intros H1 H2 e H. apply H2, H1, H. Qed.

Lemma sticky_lex p l : sticky p (with_lex p l).
Proof. intros e H. exact H. Qed.

Lemma sticky_peeked p t : sticky p (with_peeked p t).
Proof. intros e H. exact H. Qed.

Lemma sticky_err p e : err p = None -> sticky p (with_err p (Some e)).
Proof. intros H e' H'. congruence. Qed.

Lemma sticky_dict p ns :
  dicts p !! ns = None -> sticky p (with_dicts p (<[ns := ∅]> (dicts p))).
Proof. intros _ e H. exact H. Qed.

Lemma same_entries_refl p : same_entries p p.
Proof. intros ns id. reflexivity. Qed.

Lemma same_entries_trans p q r :
  same_entries p q -> same_entries q r -> same_entries p r.
Proof. intros H1 H2 ns id. rewrite H2. apply H1. Qed.

Lemma same_entries_lex p l : same_entries p (with_lex p l).
Proof. intros ns id. reflexivity. Qed.

Lemma same_entries_peeked p t : same_entries p (with_peeked p t).
Proof. intros ns id. reflexivity. Qed.

Lemma same_entries_err p e :
  err p = None -> same_entries p (with_err p (Some e)).
Proof. intros _ ns id. reflexivity. Qed.

(** Creating the empty dictionary of a namespace adds no entry. *)
Lemma same_entries_dict p ns :
  dicts p !! ns = None ->
  same_entries p (with_dicts p (<[ns := ∅]> (dicts p))).
Proof.
  intros H ns' id. unfold entry. simpl.
  destruct (decide (ns = ns')) as [<- | Hne].
  - rewrite lookup_insert_eq, H. apply lookup_empty.
  - rewrite lookup_insert_ne by exact Hne. reflexivity.
Qed.

End Instances.

Ltac use_sticky lem :=
  unfold sticky_preserved; apply lem;
  first [ exact sticky_refl | exact sticky_trans | exact sticky_lex
        | exact sticky_peeked | exact sticky_err | exact sticky_dict ].

Ltac use_entries lem :=
  unfold entries_preserved; apply lem;
  first [ exact same_entries_refl | exact same_entries_trans
        | exact same_entries_lex | exact same_entries_peeked
        | exact same_entries_err | exact same_entries_dict ].

(** ** Running a production step by step *)

Lemma bind_Ret_eq {A B} (m : M A) (k : A -> M B) p a p' r :
  m p = Ret a p' -> k a p' = r -> bind m k p = r.
Proof. intros H <-. unfold bind. rewrite H. reflexivity. Qed.

Lemma bind_OutOfFuel {A B} (m : M A) (k : A -> M B) p :
  m p = OutOfFuel -> bind m k p = OutOfFuel.
Proof. intros H. unfold bind. rewrite H. reflexivity. Qed.

(** A result that is not the cut-off stays with more fuel. *)
Lemma le_res_Ret {A} (r : Res A) a p : le_res (Ret a p) r -> r = Ret a p.
Proof. intros [H | H]; [discriminate | congruence]. Qed.

(** Runs the first call of a [bind] on a closed state. *)
Ltac run_bind :=
  lazymatch goal with
  | |- bind ?m ?k ?p = _ =>
      let r := eval vm_compute in (m p) in
      lazymatch r with
      | Ret ?a ?p' =>
          apply (bind_Ret_eq m k p a p'); [vm_compute; reflexivity | cbv beta]
      | OutOfFuel => apply bind_OutOfFuel; vm_compute; reflexivity
      end
  end.

Section StickyError.

Lemma sticky_expect t : sticky_preserved (expect t).
Proof. use_sticky preserves_expect. Qed.

Lemma sticky_expectCells fuel : sticky_preserved (expectCells fuel).
Proof. use_sticky preserves_expectCells. Qed.

Lemma sticky_expectDict_scope fuel : sticky_preserved (expectDict_scope fuel).
Proof. use_sticky preserves_expectDict_scope. Qed.

Lemma sticky_expectOID ns : sticky_preserved (expectOID ns).
Proof. use_sticky preserves_expectOID. Qed.

Lemma sticky_expectRow fuel ns : sticky_preserved (expectRow fuel ns).
Proof. use_sticky preserves_expectRow. Qed.

Lemma sticky_expectTable fuel : sticky_preserved (expectTable fuel).
Proof. use_sticky preserves_expectTable. Qed.

Lemma update_dict_err scope cells p :
  exists p', update_dict scope cells p = Ret tt p' /\ err p' = err p.
Proof.
  unfold update_dict, bind, dict.
  destruct (dicts p !! scope); eexists; split; reflexivity.
Qed.

Lemma sticky_expectDict fuel : sticky_preserved (expectDict fuel).
Proof.
  unfold expectDict, sticky_preserved.
  apply (preserves_bind sticky sticky_trans); [apply sticky_expectDict_scope |].
  intros scope.
  apply (preserves_bind sticky sticky_trans); [apply sticky_expectCells |].
  intros cells.
  apply (preserves_bind sticky sticky_trans); [apply sticky_expect |].
  intros _ p. unfold bind, get_err.
  destruct (err p) eqn:E; [apply sticky_refl |].
  destruct (update_dict_err scope cells p) as (p' & -> & He).
  intros e He'. congruence.
Qed.

(** [Parse] hands back the recorded error. *)
Lemma Parse_loop_returns_err fuel tabs p tabs' e' p' :
  Parse_loop fuel tabs p = Ret (tabs', e') p' -> e' = err p'.
Proof.
  revert tabs p. induction fuel as [| fuel IH]; intros tabs p; [discriminate |].
  simpl. unfold bind at 1.
  destruct (peekTok p) as [tok p1 | |]; try discriminate.
  assert (Hk : forall (m : M (gmap string Table)),
    (tabs'0 <~ m;
     e <~ get_err;
     match e with
     | Some _ => ret (tabs'0, e)
     | None => Parse_loop fuel tabs'0
     end) p1 = Ret (tabs', e') p' -> e' = err p').
  { intros m. unfold bind, get_err.
    destruct (m p1) as [t p2 | |]; try discriminate.
    destruct (err p2) eqn:E; [| apply IH].
    unfold ret. intros [= <- <- <-]. symmetry. exact E. }
  destruct (typ tok); try apply Hk.
  unfold bind, get_err, ret. intros [= <- <- <-]. reflexivity.
Qed.

End StickyError.

Lemma sticky_keeps_error {A} (m : M A) p e :
  sticky_preserved m -> err p = Some e -> keeps_error e (m p).
Proof.
  intros H He. specialize (H p). unfold keeps_error.
  destruct (m p); auto.
Qed.

Section DictAtomicity.

Lemma entries_expectDict_scope fuel : entries_preserved (expectDict_scope fuel).
Proof. use_entries preserves_expectDict_scope. Qed.

Lemma entries_expectCells fuel : entries_preserved (expectCells fuel).
Proof. use_entries preserves_expectCells. Qed.

Lemma entries_expect t : entries_preserved (expect t).
Proof. use_entries preserves_expect. Qed.

End DictAtomicity.

(** C10.  A dict construct that ends with an error recorded, or in a panic,
    has added or changed no entry of any dictionary: its cells are written
    only at the end, and only when no error is recorded. *)
Theorem expectDict_error_atomic (fuel : nat) (p p' : parser) :
  (expectDict fuel p = Ret tt p' /\ err p' <> None) \/
  (exists v, expectDict fuel p = Panic v p') ->
  forall ns id, entry (dicts p') ns id = entry (dicts p) ns id.
Proof.
  intros H. change (same_entries p p').
  unfold expectDict, bind in H.
  pose proof (entries_expectDict_scope fuel p) as H1.
  destruct (expectDict_scope fuel p) as [scope p1 | v p1 |].
  2: { destruct H as [[H _] | [v' H]]; [discriminate |].
       injection H as _ <-. exact H1. }
  2: { destruct H as [[H _] | [v' H]]; discriminate. }
  pose proof (entries_expectCells fuel p1) as H2.
  destruct (expectCells fuel p1) as [cells p2 | v p2 |].
  2: { destruct H as [[H _] | [v' H]]; [discriminate |].
       injection H as _ <-. eapply same_entries_trans; eassumption. }
  2: { destruct H as [[H _] | [v' H]]; discriminate. }
  pose proof (entries_expect tRANGLE p2) as H3.
  destruct (expect tRANGLE p2) as [it p3 | v p3 |].
  2: { destruct H as [[H _] | [v' H]]; [discriminate |].
       injection H as _ <-.
       eapply same_entries_trans; [eapply same_entries_trans |]; eassumption. }
  2: { destruct H as [[H _] | [v' H]]; discriminate. }
  assert (H123 : same_entries p p3)
    by (eapply same_entries_trans; [eapply same_entries_trans |]; eassumption).
  unfold get_err in H. destruct (err p3) eqn:E.
  - unfold ret in H. destruct H as [[H _] | [v' H]]; [| discriminate].
    injection H as <-. exact H123.
  - destruct (update_dict_err scope cells p3) as (p4 & Hu & He).
    rewrite Hu in H. destruct H as [[H Hne] | [v' H]]; [| discriminate].
    injection H as <-. congruence.
Qed.

(** ** Dictionary defines *)

Section Defines.

(** The loop that writes the cells is the left-biased union. *)
Lemma merge_cells_union (cells targ : gmap string string) :
  merge_cells cells targ = cells ∪ targ.
Proof.
  unfold merge_cells.
  apply (map_fold_weak_ind (fun r m => r = m ∪ targ)).
  - symmetry. apply (left_id_L ∅ (∪)).
  - intros i x m r _ ->. apply insert_union_l.
Qed.

Lemma merge_cells_lookup (cells targ : gmap string string) id v :
  cells !! id = Some v -> merge_cells cells targ !! id = Some v.
Proof.
  intros H. rewrite merge_cells_union. apply lookup_union_Some_l, H.
Qed.

(** After [update_dict], a resolve of a key of the cells gives the cell. *)
Lemma resolve_update_dict scope cells p p' id v :
  err p = None -> update_dict scope cells p = Ret tt p' ->
  cells !! id = Some v -> resolve id scope p' = Ret v p'.
Proof.
  intros He Hu Hc. unfold update_dict, bind, dict in Hu.
  assert (Hp : exists targ q, err q = None /\
            p' = with_dicts q (<[scope := merge_cells cells targ]> (dicts q))).
  { destruct (dicts p !! scope) as [d |]; injection Hu as <-.
    - exists d, p. split; [exact He | reflexivity].
    - exists ∅, (with_dicts p (<[scope := ∅]> (dicts p))).
      split; [exact He | reflexivity]. }
  destruct Hp as (targ & q & Hq & ->).
  unfold resolve, bind, dict. simpl. rewrite Hq, lookup_insert_eq.
  rewrite (merge_cells_lookup _ _ _ _ Hc). reflexivity.
Qed.

End Defines.

Section Cells.


(** A define followed by a redefine: the redefine is the last value. *)
Lemma last_value_redefine cs1 cs2 cs3 id v1 v2 :
  id ∉ map fst cs3 ->
  last_value (cs1 ++ (id, v1) :: cs2 ++ (id, v2) :: cs3) id = Some v2.
Proof.
  intros Hn.
  assert (H3 : last_value cs3 id = None).
  { induction cs3 as [| [k v] cs3 IH]; [reflexivity |]. simpl in *.
    rewrite IH by (intros H; apply Hn; right; exact H).
    destruct (decide (k = id)) as [-> | ?]; [| reflexivity].
    elim Hn. left. }
  assert (H2 : forall cs, last_value (cs ++ (id, v2) :: cs3) id = Some v2).
  { induction cs as [| [k v] cs IH]; simpl.
    - rewrite H3. destruct (decide (id = id)); congruence.
    - rewrite IH. reflexivity. }
  rewrite (app_comm_cons cs2), app_assoc. apply H2.
Qed.


End Cells.

Section LastWrite.
















End LastWrite.





(** The same across two constructs: the later define is the one resolved. *)
Example redefine_in_later_construct :
  let p := after (Parse 10 (NewParser "f" (newLexer "<(1=x)><(2=z)(1=y)>")))
             (NewParser "f" (newLexer "")) in
  resolve "1" "a" p = Ret "y" p.
Proof. vm_compute. reflexivity. Qed.

(** ** Table identity *)

Section TableIdentity.

Lemma expectTable_rows_toid fuel toid tscope tab p k t p' :
  expectTable_rows fuel toid tscope tab p = Ret (k, t) p' -> k = toid.
Proof.
  revert tab p. induction fuel as [| fuel IH]; intros tab p; [discriminate |].
  simpl. unfold bind at 1.
  destruct (peekTok p) as [tok p1 | |]; try discriminate.
  destruct (typ tok); try apply IH.
  - unfold bind. destruct (nextTok p1); try discriminate. apply IH.
  - unfold bind.
    destruct (expectRow fuel tscope p1) as [[rowID rowData] p2 | |];
      try discriminate.
    apply IH.
  - unfold bind, ret. destruct (nextTok p1); try discriminate.
    intros [= <- _ _]. reflexivity.
Qed.

Lemma coalesce_scope_inj id scope1 scope2 :
  coalesce id scope1 = coalesce id scope2 -> scope1 = scope2.
Proof.
  unfold coalesce. induction id as [| c id IH]; simpl.
  - intros [= H]. exact H.
  - intros [= H]. apply IH, H.
Qed.

(** For ids that are hex throughout, the key determines id and scope. *)
Lemma coalesce_inj id1 scope1 id2 scope2 :
  all_hex id1 = true -> all_hex id2 = true ->
  coalesce id1 scope1 = coalesce id2 scope2 -> id1 = id2 /\ scope1 = scope2.
Proof.
  unfold coalesce. revert id2.
  induction id1 as [| c1 id1 IH]; intros [| c2 id2]; simpl.
  - intros _ _ [= H]. auto.
  - intros _ H2 [= <- _].
    replace (isHex (rune_of ":")) with false in H2 by reflexivity.
    discriminate.
  - intros H1 _ [= -> _].
    replace (isHex (rune_of ":")) with false in H1 by reflexivity.
    discriminate.
  - intros H1 H2 [= <- H].
    destruct (isHex (rune_of c1)); simpl in *; try discriminate.
    destruct (IH id2 H1 H2 H) as [-> ->]. auto.
Qed.

Lemma peekTok_err p :
  match peekTok p with
  | Ret _ p' | Panic _ p' => err p' = err p
  | OutOfFuel => True
  end.
Proof.
  unfold peekTok, bind, lex_nextItem. destruct (peeked p); [reflexivity |].
  destruct (nextItem (lex p)); reflexivity.
Qed.

End TableIdentity.

(** Same id, two scopes: two tables.  Same id and scope: the later table. *)
Example two_scopes_two_tables :
  outcome_of (slurp 10 "f" "{1:a[2(x=y)]}{1:b}") =
  Returned {[ "1:a" := mkTable ∅ {[ "2" := {[ "x" := "y" ]} ]};
              "1:b" := mkTable ∅ ∅ ]} None.
Proof. vm_compute. reflexivity. Qed.

Example same_key_last_table :
  outcome_of (slurp 10 "f" "{1:a[2(x=y)]}{1:a[3(z=w)]}") =
  Returned {[ "1:a" := mkTable ∅ {[ "3" := {[ "z" := "w" ]} ]} ]} None.
Proof. vm_compute. reflexivity. Qed.

(** ** Results that do not depend on the fuel *)

Section Outcomes.

Lemma outcome_Cut r : outcome_of r = Cut -> r = OutOfFuel.
Proof. destruct r as [[] | |]; simpl; congruence. Qed.

(** A run that finishes fixes what every other finishing run gives. *)
Lemma outcome_agree n m file inp :
  outcome_of (slurp n file inp) <> Cut ->
  outcome_of (slurp m file inp) <> Cut ->
  outcome_of (slurp m file inp) = outcome_of (slurp n file inp).
Proof.
  intros Hn Hm. f_equal. apply slurp_agree.
  - intros H. apply Hm. rewrite H. reflexivity.
  - intros H. apply Hn. rewrite H. reflexivity.
Qed.

End Outcomes.

(** ** Groups *)

(** C7, as stated, fails: a group cut off inside its end marker.  The input
    enters a group and ends with no commit or abort item; the scanner reports
    the broken marker as an error item, the group loop has no case for it, and
    the parse returns that error next to the table read before the group. *)
Lemma truncated_group_with_error :
  outcome_of (slurp 10 "f" "{10}@$${1{@{20}@$$}") =
    Returned {[ "10:" := mkTable ∅ ∅ ]}
      (Some (ErrUnexpected "f" (mkItem tERROR "Bad ID" (mkPos 15 1 15)))) /\
  ~ returns_without_error "f" "{10}@$${1{@{20}@$$}".
Proof.
  assert (H10 : outcome_of (slurp 10 "f" "{10}@$${1{@{20}@$$}") =
                Returned {[ "10:" := mkTable ∅ ∅ ]}
                  (Some (ErrUnexpected "f"
                           (mkItem tERROR "Bad ID" (mkPos 15 1 15)))))
    by (vm_compute; reflexivity).
  split; [exact H10 |].
  intros (fuel & tabs & H).
  rewrite (outcome_agree 10 fuel) in H; congruence.
Qed.

Section Truncated.

Lemma peekTok_again p tok p1 :
  peekTok p = Ret tok p1 ->
  peekTok p1 = Ret tok p1 /\ nextTok p1 = Ret tok (with_peeked p1 None) /\
  err p1 = err p.
Proof.
  unfold peekTok, bind, lex_nextItem. destruct (peeked p) as [t |] eqn:E.
  - intros [= <- <-]. unfold nextTok. rewrite E. auto.
  - destruct (nextItem (lex p)) as [it l' | |]; try discriminate.
    intros [= <- <-]. unfold nextTok. simpl. auto.
Qed.

(** The loop of a group over a body that is cut off: with enough fuel it
    returns the empty map, with no error, in front of the end of the input. *)
Lemma group_run_loop p g p' :
  group_run p g p' -> err p = None ->
  exists fuel0 tokE,
    typ tokE = tEOF /\ peekTok p' = Ret tokE p' /\ err p' = None /\
    forall fuel, (fuel0 <= fuel)%nat -> expectGroup_loop fuel g p = Ret ∅ p'.
Proof.
  induction 1
    as [p g tok p1 Hp Ht
       | p g tok p1 f p2 p3 Hp Ht Hd He _ IH
       | p g tok p1 f r p2 p3 Hp Ht Hd He _ IH
       | p g tok p1 f toid tab p2 p3 Hp Ht Hd He _ IH]; intros He0.
  - destruct (peekTok_again _ _ _ Hp) as (Hpp & _ & He1).
    exists 1, tok. repeat split; try assumption; [congruence |].
    intros [| fuel] Hf; [lia |]. simpl.
    eapply bind_Ret_eq; [exact Hp |]. rewrite Ht. reflexivity.
  - destruct (IH He) as (f0 & tokE & HtE & HpE & HeE & IH').
    exists (S (Nat.max f f0)), tokE. repeat split; try assumption.
    intros [| fuel] Hf; [lia |]. simpl.
    eapply bind_Ret_eq; [exact Hp |]. rewrite Ht.
    assert (Hd' : expectDict fuel p1 = Ret tt p2).
    { apply le_res_Ret. rewrite <- Hd. apply expectDict_mono. lia. }
    eapply bind_Ret_eq; [eapply bind_Ret_eq; [exact Hd' | reflexivity] |].
    unfold bind at 1, get_err. rewrite He. apply IH'. lia.
  - destruct (IH He) as (f0 & tokE & HtE & HpE & HeE & IH').
    exists (S (Nat.max f f0)), tokE. repeat split; try assumption.
    intros [| fuel] Hf; [lia |]. simpl.
    eapply bind_Ret_eq; [exact Hp |]. rewrite Ht.
    assert (Hd' : expectRow fuel "c" p1 = Ret r p2).
    { apply le_res_Ret. rewrite <- Hd. apply expectRow_mono. lia. }
    eapply bind_Ret_eq; [eapply bind_Ret_eq; [exact Hd' | reflexivity] |].
    unfold bind at 1, get_err. rewrite He. apply IH'. lia.
  - destruct (IH He) as (f0 & tokE & HtE & HpE & HeE & IH').
    exists (S (Nat.max f f0)), tokE. repeat split; try assumption.
    intros [| fuel] Hf; [lia |]. simpl.
    eapply bind_Ret_eq; [exact Hp |]. rewrite Ht.
    assert (Hd' : expectTable fuel p1 = Ret (toid, tab) p2).
    { apply le_res_Ret. rewrite <- Hd. apply expectTable_mono. lia. }
    eapply bind_Ret_eq; [eapply bind_Ret_eq; [exact Hd' | reflexivity] |].
    unfold bind at 1, get_err. rewrite He. apply IH'. lia.
Qed.

End Truncated.

(** C7, amended.  A group cut off by the end of the input.  After the
    group-start item the loop of the group parses dicts, rows and tables, each
    to its end with no error recorded, and then meets the end of the input:
    [expectGroup] returns the empty map, whatever tables the group had
    gathered, and records no error; and [Parse] returns, with the tables it
    had before the group and no error. *)
Theorem truncated_group_discarded
    (tabs : gmap string Table) (p p1 p3 : parser) (tok : item) :
  err p = None ->
  peekTok p = Ret tok p1 -> typ tok = tGROUPSTART ->
  group_run (with_peeked p1 None) ∅ p3 ->
  exists fuel,
    expectGroup fuel p1 = Ret ∅ p3 /\ err p3 = None /\
    Parse_loop (S fuel) tabs p = Ret (tabs, None) p3.
Proof.
  intros He Hp Ht Hg.
  destruct (peekTok_again _ _ _ Hp) as (_ & Hn & He1).
  assert (He2 : err (with_peeked p1 None) = None) by (simpl; congruence).
  destruct (group_run_loop _ _ _ Hg He2)
    as (f0 & tokE & HtE & HpE & He3 & Hl).
  assert (Hx : expect tGROUPSTART p1 = Ret tok (with_peeked p1 None)).
  { unfold expect. rewrite He1, He. unfold bind. rewrite Hn.
    rewrite decide_False by (intros H; apply H, Ht). reflexivity. }
  assert (HG : expectGroup (S f0) p1 = Ret ∅ p3).
  { unfold expectGroup. eapply bind_Ret_eq; [exact Hx |].
    apply Hl. lia. }
  exists (S f0). split; [exact HG |]. split; [exact He3 |].
  remember (S f0) as f1 eqn:Ef. simpl.
  eapply bind_Ret_eq; [exact Hp |]. rewrite Ht.
  eapply bind_Ret_eq; [eapply bind_Ret_eq; [exact HG | reflexivity] |].
  unfold bind at 1, get_err. rewrite He3.
  subst f1. simpl.
  eapply bind_Ret_eq; [exact HpE |]. rewrite HtE.
  unfold bind, get_err, ret. rewrite He3. reflexivity.
Qed.

Lemma truncated_group_discarded_witness :
  exists fuel p1 p3,
    expectGroup fuel p1 = Ret ∅ p3 /\
    Parse_loop (S fuel) {[ "10:" := mkTable ∅ ∅ ]}
      (NewParser "f" (newLexer "@$${1{@<(1=x)>{20[1(n^1)]}")) =
    Ret ({[ "10:" := mkTable ∅ ∅ ]}, None) p3.
Proof.
  assert (H : exists tok p1 p3,
    peekTok (NewParser "f" (newLexer "@$${1{@<(1=x)>{20[1(n^1)]}")) =
    Ret tok p1 /\ typ tok = tGROUPSTART /\
    group_run (with_peeked p1 None) ∅ p3).
  { eexists _, _, _. split; [vm_compute; reflexivity |].
    split; [reflexivity |].
    eapply (group_dict _ _ _ _ 5);
      [vm_compute; reflexivity | reflexivity | vm_compute; reflexivity
      | reflexivity |].
    eapply (group_table _ _ _ _ 5);
      [vm_compute; reflexivity | reflexivity | vm_compute; reflexivity
      | reflexivity |].
    eapply group_eof; [vm_compute; reflexivity | reflexivity]. }
  destruct H as (tok & p1 & p3 & Hp & Ht & Hg).
  destruct (truncated_group_discarded {[ "10:" := mkTable ∅ ∅ ]}
              (NewParser "f" (newLexer "@$${1{@<(1=x)>{20[1(n^1)]}"))
              p1 p3 tok eq_refl Hp Ht Hg) as (fuel & H1 & _ & H2).
  exists fuel, p1, p3. split; assumption.
Defined.

Example truncated_group_whole_input :
  outcome_of (slurp 10 "f" "{10}@$${1{@<(1=x)>{20[1(n^1)]}") =
  Returned {[ "10:" := mkTable ∅ ∅ ]} None.
Proof. vm_compute. reflexivity. Qed.

(** ** Hex ids *)

(** C5, as stated, fails: after a caret the scanner cuts the id at the first
    byte that is no hex digit, so [^1g] is the reference [^1] followed by the
    name [g], which the table takes for a row id to skip; the parse returns a
    table and no error. *)
Lemma caret_id_cut_at_non_hex :
  outcome_of (slurp 10 "f" "<<(a=c)>(1=x)>{1:^1g}") =
    Returned {[ "1:x" := mkTable ∅ ∅ ]} None /\
  ~ returns_not_hex "f" "<<(a=c)>(1=x)>{1:^1g}".
Proof.
  assert (H10 : outcome_of (slurp 10 "f" "<<(a=c)>(1=x)>{1:^1g}") =
                Returned {[ "1:x" := mkTable ∅ ∅ ]} None)
    by (vm_compute; reflexivity).
  split; [exact H10 |].
  intros (fuel & tabs & f & tok & H).
  rewrite (outcome_agree 10 fuel) in H; congruence.
Qed.

Section HexIds.

Lemma all_hex_false s c :
  In c (list_ascii_of_string s) -> isHex (rune_of c) = false ->
  all_hex s = false.
Proof.
  induction s as [| a s IH]; simpl; [tauto |].
  intros [-> | Hin] Hc.
  - rewrite Hc. reflexivity.
  - destruct (isHex (rune_of a)); simpl; [apply IH; assumption | reflexivity].
Qed.

(** What follows the id in [expectOID] keeps a recorded error. *)
Lemma sticky_expectOID_scope (ns name : string) :
  sticky_preserved
    (colon <~ peekTok;
     scope <~ (if decide (typ colon = tCOLON) then
                 nextTok ;;;
                 tok <~ peekTok ;
                 if decide (typ tok = tCARET) then expectRef ns
                 else tok <~ expect tNAME ; ret (val tok)
               else ret "") ;
     ret (name, scope)).
Proof.
  assert (Hb : forall A B (m : M A) (k : A -> M B),
             sticky_preserved m -> (forall a, sticky_preserved (k a)) ->
             sticky_preserved (bind m k))
    by (intros; apply (preserves_bind sticky sticky_trans); assumption).
  assert (Hr : forall A (a : A), sticky_preserved (ret a))
    by (intros; apply (preserves_ret sticky sticky_refl)).
  apply Hb; [use_sticky preserves_peekTok | intros colon].
  apply Hb; [| intros; apply Hr].
  destruct (decide _); [| apply Hr].
  apply Hb; [use_sticky preserves_nextTok | intros _].
  apply Hb; [use_sticky preserves_peekTok | intros tok].
  destruct (decide _); [use_sticky preserves_expectRef |].
  apply Hb; [apply sticky_expect | intros; apply Hr].
Qed.

Lemma isHex_byte r : isHex r = true -> (0 <= r < 256)%Z.
Proof.
  unfold isHex, rune_of. simpl.
  rewrite !orb_true_iff, !andb_true_iff, !Z.leb_le. lia.
Qed.

Lemma all_hex_app s r :
  all_hex s = true -> isHex r = true ->
  all_hex (s +:+ string_of_rune r) = true.
Proof.
  intros Hs Hr. pose proof (isHex_byte r Hr) as Hb.
  assert (Hr' : rune_of (ascii_of_N (Z.to_N r)) = r).
  { unfold rune_of. rewrite N_ascii_embedding by lia. apply Z2N.id. lia. }
  induction s as [| c s IH]; simpl in *.
  - rewrite Hr', Hr. reflexivity.
  - destruct (isHex (rune_of c)); simpl in *; [apply IH, Hs | discriminate].
Qed.

Lemma gatherID_loop_all_hex n id l :
  all_hex id = true -> all_hex (fst (gatherID_loop n id l)) = true.
Proof.
  revert id l. induction n as [| n IH]; intros id l Hid; simpl;
    destruct (isHex (peek l)) eqn:E; simpl; try exact Hid.
  apply IH, all_hex_app; assumption.
Qed.

(** What the scanner gathers after a caret is hex throughout. *)
Lemma gatherID_all_hex l : all_hex (fst (gatherID l)) = true.
Proof. apply gatherID_loop_all_hex. reflexivity. Qed.

End HexIds.

(** The items of [^1g]: a caret, the id [1], the name [g]. *)
Example caret_items :
  dumpToks 10 (newLexer "^1g") =
  [(tCARET, "^"); (tNAME, "1"); (tNAME, "g"); (tEOF, "")].
Proof. vm_compute. reflexivity. Qed.

(** C5, amended.  For a bare id (the id of a table or row oid): when no
    error is recorded and the next item is a name with a character that is no
    hex digit, [expectID] takes the item, records a Not-hex error for it and
    returns the empty string; the oid it starts ends with that error
    recorded. *)
Theorem expectID_rejects_non_hex
    (p p1 : parser) (tok : item) (c : ascii) :
  err p = None ->
  nextTok p = Ret tok p1 ->
  typ tok = tNAME ->
  In c (list_ascii_of_string (val tok)) ->
  isHex (rune_of c) = false ->
  expectID p = Ret "" (with_err p1 (Some (ErrNotHex (filename p) tok))) /\
  forall ns, keeps_error (ErrNotHex (filename p) tok) (expectOID ns p).
Proof.
  intros He Hn Ht Hin Hc.
  assert (He1 : err p1 = None).
  { pose proof (nextTok_err p) as H. rewrite Hn in H. congruence. }
  assert (Hf : filename p1 = filename p).
  { unfold nextTok, lex_nextItem in Hn. destruct (peeked p).
    - injection Hn as _ <-. reflexivity.
    - destruct (nextItem (lex p)); try discriminate.
      injection Hn as _ <-. reflexivity. }
  assert (Hid : expectID p =
                Ret "" (with_err p1 (Some (ErrNotHex (filename p) tok)))).
  { unfold expectID.
    eapply bind_Ret_eq.
    { unfold expect. rewrite He. eapply bind_Ret_eq; [exact Hn |].
      rewrite decide_False by (intros H; apply H, Ht). reflexivity. }
    unfold bind, get_err, get_filename, set_err, ret. rewrite He1.
    rewrite (all_hex_false _ _ Hin Hc), Hf. reflexivity. }
  split; [exact Hid |].
  intros ns. unfold expectOID, bind at 1. rewrite Hid.
  apply sticky_keeps_error; [apply sticky_expectOID_scope | reflexivity].
Qed.

Lemma expectID_rejects_non_hex_witness :
  exists p1,
    expectID (NewParser "f" (newLexer "1g:c")) =
    Ret "" (with_err p1
              (Some (ErrNotHex "f" (mkItem tNAME "1g" (mkPos 0 1 0))))).
Proof.
  eexists.
  refine (proj1 (expectID_rejects_non_hex
                   (NewParser "f" (newLexer "1g:c")) _
                   (mkItem tNAME "1g" (mkPos 0 1 0)) "g" _ _ _ _ _)).
  - reflexivity.
  - vm_compute. reflexivity.
  - reflexivity.
  - simpl. right. left. reflexivity.
  - reflexivity.
Defined.

(** A bare table id with a letter beyond [f]: the parse returns the error. *)
Example bare_id_not_hex :
  outcome_of (slurp 10 "f" "{1g}") =
  Returned {[ ":" := mkTable ∅ ∅ ]}
    (Some (ErrNotHex "f" (mkItem tNAME "1g" (mkPos 1 1 1)))).
Proof. vm_compute. reflexivity. Qed.

(** ** The dict construct, on an input *)

Lemma expectDict_error_atomic_witness :
  entry (dicts after_bad_dict) "a" "1" = entry (dicts before_bad_dict) "a" "1"
  /\ entry (dicts before_bad_dict) "a" "1" = Some "x".
Proof.
  split.
  - apply (expectDict_error_atomic 5 before_bad_dict after_bad_dict).
    left. split; [vm_compute; reflexivity | vm_compute; discriminate].
  - vm_compute. reflexivity.
Defined.

(** ** Defects, on inputs *)

Section Defects.

(** With an item waiting that the rows loop has no case for, the loop
    goes round for ever: every amount of fuel runs out. *)
Lemma expectTable_rows_spin fuel toid tscope tab p tok :
  peeked p = Some tok ->
  typ tok <> tRBRACE -> typ tok <> tLSQUARE -> typ tok <> tNAME ->
  expectTable_rows fuel toid tscope tab p = OutOfFuel.
Proof.
  intros Hp H1 H2 H3. induction fuel as [| fuel IH]; [reflexivity |].
  simpl. unfold bind at 1. unfold peekTok. rewrite Hp.
  destruct (typ tok); try congruence; exact IH.
Qed.

(** Every mismatch in [expect], with no error recorded before, panics. *)
Lemma expect_mismatch p t tok p1 :
  err p = None -> nextTok p = Ret tok p1 -> typ tok <> t ->
  expect t p =
  Panic PanicPoop (with_err p1 (Some (ErrExpect (filename p) tok))).
Proof.
  intros He Hn Ht. unfold expect. rewrite He.
  eapply bind_Ret_eq; [exact Hn |].
  rewrite decide_True by exact Ht. reflexivity.
Qed.

(** An oid with no colon after its id has the empty scope, whatever the
    default namespace. *)
Lemma expectOID_no_colon ns p id p1 tok p2 :
  expectID p = Ret id p1 -> peekTok p1 = Ret tok p2 -> typ tok <> tCOLON ->
  expectOID ns p = Ret (id, "") p2.
Proof.
  intros Hi Hp Ht. unfold expectOID.
  eapply bind_Ret_eq; [exact Hi |].
  eapply bind_Ret_eq; [exact Hp |].
  rewrite decide_False by exact Ht. reflexivity.
Qed.

(** On its abort item a group returns an empty map and leaves the
    dictionaries as the constructs of the group have made them. *)
Lemma expectGroup_abort_keeps_dicts fuel g p tok p1 :
  err p = None -> peekTok p = Ret tok p1 -> typ tok = tGROUPABORT ->
  exists p2, expectGroup_loop (S fuel) g p = Ret ∅ p2 /\ dicts p2 = dicts p.
Proof.
  intros He Hp Ht.
  assert (H1 : err p1 = None /\ dicts p1 = dicts p /\ peeked p1 = Some tok).
  { unfold peekTok, bind, lex_nextItem in Hp. destruct (peeked p) eqn:E.
    - injection Hp as <- <-. auto.
    - destruct (nextItem (lex p)); try discriminate.
      injection Hp as <- <-. auto. }
  destruct H1 as (He1 & Hd1 & Hk1).
  exists (with_peeked p1 None). split; [| exact Hd1].
  simpl. eapply bind_Ret_eq; [exact Hp |]. rewrite Ht.
  eapply bind_Ret_eq; [| reflexivity].
  unfold expect. rewrite He1. unfold bind, nextTok. rewrite Hk1.
  rewrite decide_False by (intros H; apply H, Ht). reflexivity.
Qed.

End Defects.

(** C1, at two inputs.  A group that defines the dictionary entry [1] and the
    table [10] and is then aborted: the entry stays, the reference [^1] of a
    later table resolves to [x], and the parse returns without error.  The
    same group committed: its table is not in the result. *)
Theorem group_not_atomic :
  outcome_of (slurp 10 "f" "@$${1{@<(1=x)>{10}@$$}~~}@{20[1(n^1)]}") =
    Returned {[ "20:" := mkTable ∅ {[ "1" := {[ "n" := "x" ]} ]} ]} None /\
  outcome_of (slurp 10 "f" "@$${1{@<(1=x)>{10}@$$}1}@") = Returned ∅ None /\
  entry (dicts (after (slurp 10 "f" "@$${1{@<(1=x)>{10}@$$}1}@")
                  (NewParser "f" (newLexer "")))) "a" "1" = Some "x".
Proof. repeat split; vm_compute; reflexivity. Qed.

(** C2, at an input.  After a complete table, a dict without its closing
    bracket: [expect] meets the end of the input and panics; the parse never
    returns a table map. *)
Theorem expect_mismatch_panics :
  outcome_of (slurp 10 "f" "{10}<(a=b)") = Panicked PanicPoop /\
  forall fuel tabs e,
    outcome_of (slurp fuel "f" "{10}<(a=b)") <> Returned tabs e.
Proof.
  assert (H10 : outcome_of (slurp 10 "f" "{10}<(a=b)") = Panicked PanicPoop)
    by (vm_compute; reflexivity).
  split; [exact H10 |].
  intros fuel tabs e H.
  rewrite (outcome_agree 10 fuel) in H; congruence.
Qed.

(** C3, at two inputs.  A reference to nothing in a row of a table, and a
    byte that starts no item in a table body: the rows loop of the table
    never exits, whatever the fuel. *)
Theorem table_body_error_never_returns :
  forall fuel,
    slurp fuel "f" "{10[20(n^1)]}" = OutOfFuel /\
    slurp fuel "f" "{10#}" = OutOfFuel.
Proof.
  intros fuel. unfold slurp, Parse. split.
  - destruct fuel as [| f]; [reflexivity |].
    simpl Parse_loop.
    run_bind. cbn [typ].
    do 2 apply bind_OutOfFuel.
    unfold expectTable.
    do 3 run_bind.
    rewrite decide_False by discriminate.
    destruct f as [| f]; [reflexivity |].
    simpl expectTable_rows.
    run_bind. cbn [typ].
    destruct f as [| f]; [reflexivity |].
    run_bind.
    eapply expectTable_rows_spin; [reflexivity | discriminate ..].
  - destruct fuel as [| f]; [reflexivity |].
    simpl Parse_loop.
    run_bind. cbn [typ].
    do 2 apply bind_OutOfFuel.
    unfold expectTable.
    do 3 run_bind.
    rewrite decide_False by discriminate.
    eapply expectTable_rows_spin; [reflexivity | discriminate ..].
Qed.

(** C4, at its input.  The parse succeeds with one table, its meta and its
    row as the claim has them, under the key [10:] and not [10:c]: a table
    oid written without a scope has the empty scope. *)
Theorem literal_example_result :
  exists tabs,
    outcome_of (slurp 10 "f" literal_example) = Returned tabs None /\
    tabs = {[ "10:" := mkTable {[ "owner" := "Alice" ]}
                         {[ "20" := {[ "name" := "Bob" ]} ]} ]} /\
    tabs !! "10:c" = None.
Proof.
  eexists. split; [vm_compute; reflexivity |].
  split; vm_compute; reflexivity.
Qed.

(** C8, at an input.  Two table constructs with the id [1], the first written
    without a scope, the second with the scope [c] that the first has by
    default: the parse stores them under two keys, [1:] and [1:c], and the
    first is not replaced by the second. *)
Theorem same_oid_tables_split :
  outcome_of (slurp 10 "f" "{1[2(x=y)]}{1:c[3(z=w)]}") =
    Returned {[ "1:" := mkTable ∅ {[ "2" := {[ "x" := "y" ]} ]};
                "1:c" := mkTable ∅ {[ "3" := {[ "z" := "w" ]} ]} ]} None /\
  forall fuel tabs e,
    outcome_of (slurp fuel "f" "{1[2(x=y)]}{1:c[3(z=w)]}") = Returned tabs e ->
    tabs !! "1:" = Some (mkTable ∅ {[ "2" := {[ "x" := "y" ]} ]}) /\
    tabs !! "1:c" = Some (mkTable ∅ {[ "3" := {[ "z" := "w" ]} ]}) /\
    tabs <> {[ "1:c" := mkTable ∅ {[ "3" := {[ "z" := "w" ]} ]} ]}.
Proof.
  assert (H10 : outcome_of (slurp 10 "f" "{1[2(x=y)]}{1:c[3(z=w)]}") =
    Returned {[ "1:" := mkTable ∅ {[ "2" := {[ "x" := "y" ]} ]};
                "1:c" := mkTable ∅ {[ "3" := {[ "z" := "w" ]} ]} ]} None)
    by (vm_compute; reflexivity).
  split; [exact H10 |].
  intros fuel tabs e H.
  rewrite (outcome_agree 10 fuel) in H by congruence.
  rewrite H10 in H. injection H as <- <-.
  split; [vm_compute; reflexivity |]. split; [vm_compute; reflexivity |].
  intros E. apply (f_equal (fun m => m !! "1:")) in E.
  vm_compute in E. discriminate.
Qed.

(** C9, at two inputs.  With an error recorded, [expect] and [resolve] do
    nothing, as claimed.  But a recorded error does not always reach the
    caller.  After a complete table, a dict without its closing bracket:
    [expect] records the error and panics.  A reference to nothing in a row of
    a table: the table reaches its rows loop, [resolve] records the error
    inside the row, the row returns, and the loop never ends, whatever the
    fuel. *)
Theorem recorded_error_not_returned :
  (forall p e,
      err p = Some e ->
      (forall t, expect t p = Ret zeroItem p) /\
      (forall id ns, resolve id ns p = Ret "" p)) /\
  (exists p',
      slurp 10 "f" "{10}<(a=b)" = Panic PanicPoop p' /\
      err p' = Some (ErrExpect "f" (mkItem tEOF "" (mkPos 10 1 10)))) /\
  (forall fuel tabs e,
      outcome_of (slurp fuel "f" "{10}<(a=b)") <> Returned tabs e) /\
  (exists tok p0 p1 q,
      peekTok (NewParser "f" (newLexer "{10[20(n^1)]}")) = Ret tok p0 /\
      (forall fuel,
          expectTable fuel p0 =
          expectTable_rows fuel "10:" "" (mkTable ∅ ∅) p1) /\
      err p1 = None /\
      peeked p1 = Some (mkItem tLSQUARE "[" (mkPos 3 1 3)) /\
      expectRow 5 "" p1 = Ret ("20", ∅) q /\
      err q = Some (ErrBadAlias "f" "1" "a") /\
      (forall fuel,
          expectTable_rows fuel "10:" "" (mkTable ∅ {[ "20" := ∅ ]}) q =
          OutOfFuel)) /\
  (forall fuel, slurp fuel "f" "{10[20(n^1)]}" = OutOfFuel).
Proof.
  split; [| split; [| split; [| split]]].
  - intros p e He. split.
    + intros t. unfold expect. rewrite He. reflexivity.
    + intros id ns. unfold resolve. rewrite He. reflexivity.
  - eexists. split; [vm_compute; reflexivity | reflexivity].
  - intros fuel tabs e H.
    assert (H10 : outcome_of (slurp 10 "f" "{10}<(a=b)") = Panicked PanicPoop)
      by (vm_compute; reflexivity).
    rewrite (outcome_agree 10 fuel) in H; congruence.
  - eexists _, _, _, _. split; [vm_compute; reflexivity |].
    split; [| split; [| split; [| split; [| split]]]].
    + intros fuel. unfold expectTable. do 3 run_bind.
      rewrite decide_False by discriminate. reflexivity.
    + reflexivity.
    + reflexivity.
    + vm_compute. reflexivity.
    + reflexivity.
    + intros fuel.
      eapply expectTable_rows_spin; [reflexivity | discriminate ..].
  - intros fuel. unfold slurp, Parse.
    destruct fuel as [| f]; [reflexivity |].
    simpl Parse_loop.
    run_bind. cbn [typ].
    do 2 apply bind_OutOfFuel.
    unfold expectTable.
    do 3 run_bind.
    rewrite decide_False by discriminate.
    destruct f as [| f]; [reflexivity |].
    simpl expectTable_rows.
    run_bind. cbn [typ].
    destruct f as [| f]; [reflexivity |].
    run_bind.
    eapply expectTable_rows_spin; [reflexivity | discriminate ..].
Qed.

(** * Further properties of the scanner and the parser *)

(** ** The channel *)

Section Channel.

Local Open Scope Z_scope.

Lemma nextItem_loop_LNil n l l' :
  nextItem_loop n l = LNil l' -> l' = l /\ items l = [] /\ state l = None \/
  (items l' = [] /\ state l' = None).
Proof.
  revert l. induction n as [| n IH]; intros l; simpl;
    destruct (items l) eqn:Ei; try discriminate;
    destruct (state l) as [s |] eqn:Es; try discriminate.
  - intros [= <-]. auto.
  - destruct (run s l) as [l1 s1]. intros H.
    destruct (IH _ H) as [(-> & H1 & H2) | H']; right; auto.
  - intros [= <-]. auto.
Qed.

(** X1.  [nextItem] never spins: it returns an item, or it calls a nil state
    function (a panic), and that only with the channel empty and the state
    nil, that is when it is called again after the end or an error. *)
Theorem scanner_always_answers (l : lexer) :
  (exists it l', nextItem l = LItem it l') \/
  (exists l', nextItem l = LNil l' /\ items l' = [] /\ state l' = None).
Proof.
  pose proof (nextItem_not_stuck l) as H.
  destruct (nextItem l) as [it l' | l' |] eqn:E;
    [left; eauto | right | congruence].
  exists l'. split; [reflexivity |].
  unfold nextItem in E.
  destruct (nextItem_loop_LNil _ _ _ E) as [(-> & H1 & H2) | H']; auto.
Qed.

Lemma nextItem_loop_queue n l :
  (length (items l) <= 2)%nat ->
  match nextItem_loop n l with
  | LItem _ l' => (length (items l') <= 1)%nat
  | LNil l' => items l' = []
  | LStuck => True
  end.
Proof.
  revert l. induction n as [| n IH]; intros l Hl; simpl;
    destruct (items l) as [| it rest] eqn:Ei; simpl in *; try lia;
    destruct (state l) as [s |] eqn:Es; try exact Ei; try exact I.
  pose proof (run_items_le_2 s l) as H2. rewrite Ei in H2.
  destruct (run s l) as [l1 s1]. simpl in H2.
  apply IH. simpl. lia.
Qed.

(** X2.  The channel's two places are enough.  A state is run only when the
    channel is empty, and one run sends at most two items; and [nextItem]
    leaves at most one item behind. *)
Theorem channel_holds_two (l : lexer) :
  (length (items l) <= 2)%nat ->
  (forall s, items l = [] -> (length (items (fst (run s l))) <= 2)%nat) /\
  match nextItem l with
  | LItem _ l' => (length (items l') <= 1)%nat
  | LNil l' => items l' = []
  | LStuck => False
  end.
Proof.
  intros Hl. split.
  - intros s Hi. pose proof (run_items_le_2 s l) as H. rewrite Hi in H. exact H.
  - pose proof (nextItem_not_stuck l) as Hs.
    pose proof (nextItem_loop_queue (remaining l + 2) l Hl) as H.
    unfold nextItem in *. destruct (nextItem_loop _ l); auto.
Qed.

Lemma channel_holds_two_witness :
  match nextItem (newLexer "^1f") with
  | LItem _ l' => (length (items l') <= 1)%nat
  | LNil l' => items l' = []
  | LStuck => False
  end.
Proof.
  apply (channel_holds_two (newLexer "^1f")). simpl. lia.
Defined.

End Channel.

(** *** Invariants of the scanner *)

Section ScannerInvariant.

Local Open Scope Z_scope.

Variable Inv : lexer -> Prop.
Hypothesis Inv_next : forall l, Inv l -> Inv (snd (next l)).
Hypothesis Inv_emit : forall t l, Inv l -> Inv (emit t l).
Hypothesis Inv_emitErrorf : forall msg l, Inv l -> Inv (emitErrorf msg l).
Hypothesis Inv_restart : forall l, Inv l -> Inv (with_start l (curr l)).
Hypothesis Inv_state : forall l s, Inv l -> Inv (with_state l s).
Hypothesis Inv_receive :
  forall l it rest, items l = it :: rest -> Inv l -> Inv (with_items l rest).

Lemma inv_gatherID_loop n id l : Inv l -> Inv (snd (gatherID_loop n id l)).
Proof.
  revert id l. induction n as [| n IH]; intros id l H; simpl;
    destruct (negb (isHex (peek l))); simpl; auto.
Qed.

Lemma inv_gatherID l : Inv l -> Inv (snd (gatherID l)).
Proof. apply inv_gatherID_loop. Qed.

Lemma inv_lexer_expect_loop whole s l :
  Inv l -> Inv (snd (lexer_expect_loop whole s l)).
Proof.
  revert l. induction s as [| c s IH]; intros l H; simpl; auto.
  pose proof (Inv_next l H) as Hn. destruct (next l) as [r l1].
  cbn [snd] in Hn. destruct (negb _); cbn [snd]; auto.
Qed.

Lemma inv_lexer_expect s l : Inv l -> Inv (snd (lexer_expect s l)).
Proof. apply inv_lexer_expect_loop. Qed.

Lemma inv_lexLiteral_loop n esc l : Inv l -> Inv (lexLiteral_loop n esc l).
Proof.
  revert esc l. induction n as [| n IH]; intros esc l H; simpl;
    destruct (_ =? _); auto;
    destruct (negb esc && _); auto.
Qed.

Lemma inv_lexComment_loop n l : Inv l -> Inv (lexComment_loop n l).
Proof.
  revert l. induction n as [| n IH]; intros l H; simpl;
    destruct (_ || _); auto.
Qed.

Lemma inv_lexName_loop n first l : Inv l -> Inv (lexName_loop n first l).
Proof.
  revert first l. induction n as [| n IH]; intros first l H; simpl;
    destruct (negb _); auto.
Qed.

#[local] Hint Resolve inv_gatherID inv_lexer_expect inv_lexLiteral_loop
  inv_lexComment_loop inv_lexName_loop : core.

Lemma inv_run_lexLiteral l : Inv l -> Inv (fst (run_lexLiteral l)).
Proof.
  intros H. unfold run_lexLiteral.
  pose proof (Inv_next l H) as Hn. destruct (next l) as [r l1].
  cbn [snd] in Hn. destruct (negb _); cbn [fst]; auto.
Qed.

Lemma inv_run_lexComment l : Inv l -> Inv (fst (run_lexComment l)).
Proof.
  intros H. unfold run_lexComment.
  pose proof (Inv_next l H) as Hn. destruct (next l) as [r l1].
  cbn [snd] in Hn. destruct (negb _); cbn [fst]; auto.
  pose proof (Inv_next l1 Hn) as Hn'.
  destruct (next l1) as [r' l2]. cbn [snd] in Hn'.
  destruct (negb _); cbn [fst]; auto.
Qed.

Lemma inv_run_lexName l : Inv l -> Inv (fst (run_lexName l)).
Proof. intros H. unfold run_lexName. cbn [fst]. auto. Qed.

Lemma inv_run_lexGroup l : Inv l -> Inv (fst (run_lexGroup l)).
Proof.
  intros H. unfold run_lexGroup, syntaxError.
  pose proof (inv_lexer_expect "@$$" l H) as H1.
  destruct (lexer_expect "@$$" l) as [ok l1]. cbn [snd] in H1.
  destruct ok; cbn [negb fst]; [| exact H1].
  pose proof (Inv_next l1 H1) as H2.
  destruct (next l1) as [r l2]. cbn [snd] in H2.
  destruct (r =? rune_of "{").
  { pose proof (inv_gatherID l2 H2) as H3.
    destruct (gatherID l2) as [id l3]. cbn [snd] in H3.
    destruct (_ =? _)%nat; cbn [fst]; auto.
    pose proof (inv_lexer_expect "{@" l3 H3) as H4.
    destruct (lexer_expect _ l3) as [ok l4]. cbn [snd] in H4.
    destruct ok; cbn [negb fst]; auto. }
  destruct (r =? rune_of "}"); [| cbn [fst]; auto].
  destruct (peek l2 =? rune_of "~").
  { pose proof (inv_lexer_expect "~~}@" l2 H2) as H4.
    destruct (lexer_expect _ l2) as [ok l4]. cbn [snd] in H4.
    destruct ok; cbn [negb fst]; auto. }
  pose proof (inv_gatherID l2 H2) as H3.
  destruct (gatherID l2) as [id l3]. cbn [snd] in H3.
  destruct (_ =? _)%nat; cbn [fst]; auto.
  pose proof (inv_lexer_expect "}@" l3 H3) as H4.
  destruct (lexer_expect _ l3) as [ok l4]. cbn [snd] in H4.
  destruct ok; cbn [negb fst]; auto.
Qed.

Lemma inv_lexDefault_tail l :
  Inv l ->
  Inv (fst
     match singles (peek l) with
     | Some t => (emit t (snd (next l)), Some lexDefault)
     | None =>
         if (peek l =? rune_of "^")%Z then
           let l1 := emit tCARET (snd (next l)) in
           let '(id, l2) := gatherID l1 in
           if (String.length id =? 0)%nat then syntaxError l2
           else (emit tNAME l2, Some lexDefault)
         else if (peek l =? rune_of "/")%Z then (l, Some lexComment)
         else if (peek l =? rune_of "=")%Z then (l, Some lexLiteral)
         else if isAlpha (peek l) || isDigit (peek l)
                 || (peek l =? rune_of "_")%Z then (l, Some lexName)
         else if (peek l =? rune_of "@")%Z then (l, Some lexGroup)
         else syntaxError l
     end).
Proof.
  intros H. unfold syntaxError.
  destruct (singles (peek l)); [cbn [fst]; auto |].
  destruct (_ =? rune_of "^").
  { pose proof (inv_gatherID (emit tCARET (snd (next l)))
                  ltac:(auto)) as H3.
    cbv zeta. destruct (gatherID _) as [id l3]. cbn [snd] in H3.
    destruct (_ =? _)%nat; cbn [fst]; auto. }
  destruct (_ =? rune_of "/"); [exact H |].
  destruct (_ =? rune_of "="); [exact H |].
  destruct (_ || _); [exact H |].
  destruct (_ =? rune_of "@"); [exact H |].
  cbn [fst]. auto.
Qed.

Lemma inv_lexDefault_loop n l : Inv l -> Inv (fst (lexDefault_loop n l)).
Proof.
  revert l. induction n as [| n IH]; intros l H; simpl;
    (destruct (peek l =? EOF); [cbn [fst]; auto |]).
  - destruct (isSpace (peek l)); [exact H |].
    apply inv_lexDefault_tail, H.
  - destruct (isSpace (peek l)); [| apply inv_lexDefault_tail, H].
    apply IH. auto.
Qed.

Lemma inv_run s l : Inv l -> Inv (fst (run s l)).
Proof.
  intros H. destruct s; cbn [run].
  - apply inv_lexDefault_loop, H.
  - apply inv_run_lexLiteral, H.
  - apply inv_run_lexComment, H.
  - apply inv_run_lexName, H.
  - apply inv_run_lexGroup, H.
Qed.

Lemma inv_nextItem_loop n l it l' :
  Inv l -> nextItem_loop n l = LItem it l' ->
  exists l0 rest, Inv l0 /\ items l0 = it :: rest /\ l' = with_items l0 rest.
Proof.
  revert l. induction n as [| n IH]; intros l H; simpl;
    destruct (items l) eqn:Ei.
  - destruct (state l); discriminate.
  - intros [= <- <-]. eauto.
  - destruct (state l) as [s |]; [| discriminate].
    pose proof (inv_run s l H) as Hr.
    destruct (run s l) as [l1 s1]. cbn [fst] in Hr.
    apply IH. auto.
  - intros [= <- <-]. eauto.
Qed.

Lemma inv_nextItem l it l' : Inv l -> nextItem l = LItem it l' -> Inv l'.
Proof.
  intros H E.
  destruct (inv_nextItem_loop _ _ _ _ H E) as (l0 & rest & H0 & Hi & ->).
  eapply Inv_receive; eassumption.
Qed.

End ScannerInvariant.

(** *** Bounds *)

Section Bounds.

Ltac solve_moved :=
  unfold moved_on, in_bounds in *; simpl in *;
  repeat split; try reflexivity; lia.

Lemma moved_on_refl l : in_bounds l -> moved_on l l.
Proof. intros H. unfold moved_on. auto. Qed.

Lemma moved_on_trans l1 l2 l3 :
  moved_on l1 l2 -> moved_on l2 l3 -> moved_on l1 l3.
Proof.
  intros (H1 & H2 & H3) (H4 & H5 & H6). unfold moved_on.
  repeat split; try apply H6; [congruence | lia].
Qed.

Lemma next_step a l : moved_on a l -> moved_on a (snd (next l)).
Proof.
  intros H. eapply moved_on_trans; [exact H |]. destruct H as (_ & _ & Hb).
  unfold next.
  destruct (Nat.leb_spec (String.length (input l)) (offset (curr l)));
    [apply moved_on_refl, Hb |].
  destruct (_ =? _)%Z; solve_moved.
Qed.

Lemma emit_step a t l : moved_on a l -> moved_on a (emit t l).
Proof.
  intros H. eapply moved_on_trans; [exact H |]. destruct H as (_ & _ & Hb).
  unfold emit. solve_moved.
Qed.

Lemma emitErrorf_step a msg l : moved_on a l -> moved_on a (emitErrorf msg l).
Proof.
  intros H. eapply moved_on_trans; [exact H |]. destruct H as (_ & _ & Hb).
  unfold emitErrorf. solve_moved.
Qed.

Lemma restart_step a l : moved_on a l -> moved_on a (with_start l (curr l)).
Proof.
  intros H. eapply moved_on_trans; [exact H |]. destruct H as (_ & _ & Hb).
  solve_moved.
Qed.

(** X3.  The scanner stays inside its input.  From a scanner with
    [start <= curr <= len(input)], every run of a state and every [nextItem]
    keep the input, never move [curr] back, and end within the same bounds,
    so the slice taken by [emit] is always in range. *)
Theorem scanner_stays_in_bounds (l : lexer) :
  in_bounds l ->
  (forall s, moved_on l (fst (run s l))) /\
  (forall it l', nextItem l = LItem it l' -> moved_on l l').
Proof.
  intros Hb.
  assert (Hall : (forall s, moved_on l (fst (run s l))) /\
                 (forall it l', nextItem l = LItem it l' -> moved_on l l')).
  { split; [intros s; apply (inv_run (moved_on l))
           | intros it l'; apply (inv_nextItem (moved_on l))];
      first [ apply next_step | apply emit_step | apply emitErrorf_step
            | apply restart_step | apply moved_on_refl, Hb
            | intros; assumption ]. }
  exact Hall.
Qed.

Lemma scanner_stays_in_bounds_witness :
  moved_on (newLexer "ab cd") (fst (run lexName (newLexer "ab cd"))).
Proof.
  apply (scanner_stays_in_bounds (newLexer "ab cd")).
  unfold in_bounds. simpl. lia.
Defined.

End Bounds.

(** ** What the states send *)

Section Pieces.

Local Open Scope Z_scope.

Lemma next_fst_peek l : fst (next l) = peek l.
Proof. unfold next, peek. destruct (_ <=? _)%nat; reflexivity. Qed.

Lemma next_offset l :
  peek l <> EOF -> offset (curr (snd (next l))) = S (offset (curr l)).
Proof.
  unfold next, peek. destruct (_ <=? _)%nat; [congruence |]. intros _.
  simpl. destruct (_ =? _); reflexivity.
Qed.

Lemma next_start l : start (snd (next l)) = start l.
Proof. unfold next. destruct (_ <=? _)%nat; reflexivity. Qed.

Lemma next_input l : input (snd (next l)) = input l.
Proof. unfold next. destruct (_ <=? _)%nat; reflexivity. Qed.

Lemma rune_of_not_EOF c : rune_of c <> EOF.
Proof. unfold rune_of, EOF. lia. Qed.

Lemma emit_items_eq t l :
  items (emit t l) =
  items l ++ [mkItem t (String.substring (offset (start l))
                          (offset (curr l) - offset (start l)) (input l))
                (start l)].
Proof. reflexivity. Qed.

Lemma emitErrorf_items_eq msg l :
  items (emitErrorf msg l) = items l ++ [mkItem tERROR msg (start l)].
Proof. reflexivity. Qed.

(** *** The scanner's own expect *)

Lemma lexer_expect_loop_spec whole s l :
  let r := lexer_expect_loop whole s l in
  if fst r
  then items (snd r) = items l /\ start (snd r) = start l /\
       offset (curr (snd r)) = (offset (curr l) + String.length s)%nat
  else items (snd r) =
       items l ++ [mkItem tERROR ("Expected " +:+ dquote +:+ whole +:+ dquote)
                     (start l)].
Proof.
  revert l. induction s as [| c s IH]; intros l; simpl.
  - repeat split. lia.
  - pose proof (next_fst_peek l) as Hp. pose proof (next_items l) as Hi.
    pose proof (next_start l) as Hs. pose proof (next_offset l) as Ho.
    destruct (next l) as [r l1]. cbn [fst snd] in *.
    destruct (Z.eqb_spec r (rune_of c)) as [-> | Hne]; cbn [negb fst snd].
    + specialize (IH l1). cbv zeta in IH.
      destruct (fst (lexer_expect_loop whole s l1)).
      * destruct IH as (H1 & H2 & H3). repeat split; try congruence.
        rewrite H3, Ho by (rewrite <- Hp; apply rune_of_not_EOF). lia.
      * rewrite IH, Hi, Hs. reflexivity.
    + rewrite emitErrorf_items_eq, Hi, Hs. reflexivity.
Qed.

Lemma lexer_expect_items s l :
  (fst (lexer_expect s l) = true -> items (snd (lexer_expect s l)) = items l) /\
  (fst (lexer_expect s l) = false ->
   items (snd (lexer_expect s l)) =
   items l ++ [mkItem tERROR ("Expected " +:+ dquote +:+ s +:+ dquote)
                 (start l)]).
Proof.
  pose proof (lexer_expect_loop_spec s s l) as H. cbv zeta in H.
  unfold lexer_expect. destruct (fst (lexer_expect_loop s s l)).
  - split; [intros _; apply H | discriminate].
  - split; [discriminate | intros _; exact H].
Qed.

Lemma run_lexComment_shape l :
  (snd (run_lexComment l) = Some lexDefault /\
   items (fst (run_lexComment l)) = items l) \/
  (snd (run_lexComment l) = None /\
   items (fst (run_lexComment l)) =
   items l ++ [mkItem tERROR "expected '/'" (start l)]).
Proof.
  unfold run_lexComment.
  pose proof (next_items l) as Hi. pose proof (next_start l) as Hs.
  destruct (next l) as [r l1]. cbn [snd] in *.
  destruct (negb _); cbn [fst snd];
    [right; rewrite emitErrorf_items_eq, Hi, Hs; auto |].
  pose proof (next_items l1) as Hi'. pose proof (next_start l1) as Hs'.
  destruct (next l1) as [r' l2]. cbn [snd] in *.
  destruct (negb _); cbn [fst snd];
    [right; rewrite emitErrorf_items_eq, Hi', Hs', Hi, Hs; auto |].
  left. split; [reflexivity |].
  cbn [items with_start]. rewrite lexComment_loop_items. congruence.
Qed.

(** X4.  The scanner's [expect].  When it succeeds it has taken exactly the
    bytes of [s] and sent nothing; when it fails it has sent one error item,
    [Expected "s"], placed at the start of the current item. *)
Theorem lexer_expect_spec (s : string) (l : lexer) :
  (fst (lexer_expect s l) = true ->
   items (snd (lexer_expect s l)) = items l /\
   start (snd (lexer_expect s l)) = start l /\
   offset (curr (snd (lexer_expect s l))) =
   (offset (curr l) + String.length s)%nat) /\
  (fst (lexer_expect s l) = false ->
   items (snd (lexer_expect s l)) =
   items l ++ [mkItem tERROR ("Expected " +:+ dquote +:+ s +:+ dquote)
                 (start l)]).
Proof.
  pose proof (lexer_expect_loop_spec s s l) as H. cbv zeta in H.
  unfold lexer_expect. destruct (fst (lexer_expect_loop s s l)).
  - split; [intros _; exact H | discriminate].
  - split; [discriminate | intros _; exact H].
Qed.

(** *** gatherID *)

Lemma length_append_rune id r :
  String.length (id +:+ string_of_rune r) = S (String.length id).
Proof.
  induction id as [| c id IH]; simpl; [reflexivity |].
  rewrite IH. reflexivity.
Qed.

Lemma gatherID_loop_spec n id l :
  (remaining l <= n)%nat ->
  let r := gatherID_loop n id l in
  isHex (peek (snd r)) = false /\
  (offset (curr (snd r)) + String.length id =
   offset (curr l) + String.length (fst r))%nat /\
  start (snd r) = start l.
Proof.
  revert id l. induction n as [| n IH]; intros id l Hn; simpl.
  - rewrite (peek_at_end l) by lia. simpl. rewrite (peek_at_end l) by lia.
    repeat split.
  - destruct (isHex (peek l)) eqn:E; simpl; [| rewrite E; repeat split].
    assert (Hp : peek l <> EOF) by (intros H; rewrite H in E; discriminate).
    destruct (IH (id +:+ string_of_rune (peek l)) (snd (next l)))
      as (H1 & H2 & H3).
    { apply next_rounds; assumption. }
    split; [exact H1 |].
    rewrite length_append_rune, next_offset in H2 by exact Hp.
    rewrite next_start in H3. split; [lia | exact H3].
Qed.

(** X5.  [gatherID] takes the longest run of hex digits: what it returns is
    all hex, the next byte is no hex digit (or the input has ended), [curr]
    has moved by the length of the id, and nothing is sent. *)
Theorem gatherID_maximal (l : lexer) :
  all_hex (fst (gatherID l)) = true /\
  isHex (peek (snd (gatherID l))) = false /\
  offset (curr (snd (gatherID l))) =
  (offset (curr l) + String.length (fst (gatherID l)))%nat /\
  items (snd (gatherID l)) = items l.
Proof.
  split; [apply gatherID_all_hex |].
  destruct (gatherID_loop_spec (remaining l) "" l (Nat.le_refl _))
    as (H1 & H2 & _).
  fold (gatherID l) in *. split; [exact H1 |].
  split; [simpl in H2; lia | apply gatherID_loop_items].
Qed.

(** *** Comments and literals *)

Lemma lexComment_loop_exit n l :
  (remaining l <= n)%nat ->
  peek (lexComment_loop n l) = EOF \/
  peek (lexComment_loop n l) = rune_of "010".
Proof.
  revert l. induction n as [| n IH]; intros l Hn; simpl.
  - rewrite (peek_at_end l) by lia. simpl. left. apply peek_at_end. lia.
  - destruct (Z.eqb_spec (peek l) EOF) as [E | E]; [left; exact E |].
    destruct (Z.eqb_spec (peek l) (rune_of "010")) as [E' | E'];
      [right; exact E' |]. simpl.
    apply IH. apply next_rounds; assumption.
Qed.

(** X6.  A comment leaves no item.  [lexComment] either goes back to
    [lexDefault] having sent nothing, the current item restarted at [curr],
    which is the end of the input or a line feed; or, a slash missing, it
    sends one error item and returns nil. *)
Theorem comment_sends_nothing (l : lexer) :
  (snd (run_lexComment l) = Some lexDefault /\
   items (fst (run_lexComment l)) = items l /\
   start (fst (run_lexComment l)) = curr (fst (run_lexComment l)) /\
   (peek (fst (run_lexComment l)) = EOF \/
    peek (fst (run_lexComment l)) = rune_of "010")) \/
  (snd (run_lexComment l) = None /\
   items (fst (run_lexComment l)) =
   items l ++ [mkItem tERROR "expected '/'" (start l)]).
Proof.
  unfold run_lexComment.
  pose proof (next_items l) as Hi. pose proof (next_start l) as Hs.
  destruct (next l) as [r l1]. cbn [snd] in *.
  destruct (negb _); cbn [fst snd];
    [right; rewrite emitErrorf_items_eq, Hi, Hs; auto |].
  pose proof (next_items l1) as Hi'. pose proof (next_start l1) as Hs'.
  destruct (next l1) as [r' l2]. cbn [snd] in *.
  destruct (negb _); cbn [fst snd];
    [right; rewrite emitErrorf_items_eq, Hi', Hs', Hi, Hs; auto |].
  left. split; [reflexivity |]. split; [| split; [reflexivity |]].
  - cbn [items with_start]. rewrite lexComment_loop_items. congruence.
  - apply (lexComment_loop_exit (remaining l2) l2). lia.
Qed.

Lemma lexLiteral_loop_exit n esc l :
  (remaining l <= n)%nat ->
  peek (lexLiteral_loop n esc l) = EOF \/
  peek (lexLiteral_loop n esc l) = rune_of ")".
Proof.
  revert esc l. induction n as [| n IH]; intros esc l Hn; simpl.
  - rewrite (peek_at_end l) by lia. simpl. left. apply peek_at_end. lia.
  - destruct (Z.eqb_spec (peek l) EOF) as [E | E]; [left; exact E |].
    destruct esc; simpl.
    + apply IH. apply next_rounds; assumption.
    + destruct (Z.eqb_spec (peek l) (rune_of ")")) as [E' | E'];
        [right; exact E' |].
      apply IH. apply next_rounds; assumption.
Qed.

(** X7.  In front of [=], [lexLiteral] always sends two items, the [=] and
    a literal (empty if need be) that starts right after it, and goes back to
    [lexDefault]; it stops at the end of the input or in front of a [)]. *)
Theorem literal_always_two_items (l : lexer) :
  peek l = rune_of "=" ->
  exists eq lit,
    snd (run_lexLiteral l) = Some lexDefault /\
    items (fst (run_lexLiteral l)) = items l ++ [eq; lit] /\
    typ eq = tEQUAL /\ typ lit = tLITERAL /\
    offset (pos lit) = S (offset (curr l)) /\
    (peek (fst (run_lexLiteral l)) = EOF \/
     peek (fst (run_lexLiteral l)) = rune_of ")").
Proof.
  intros Hp. unfold run_lexLiteral.
  pose proof (next_fst_peek l) as Hf. pose proof (next_items l) as Hi.
  pose proof (next_offset l) as Ho.
  destruct (next l) as [r l1]. cbn [fst snd] in *.
  rewrite Hf, Hp. cbn [Z.eqb negb].
  replace (rune_of "=" =? rune_of "=") with true by reflexivity. cbn [negb].
  eexists _, _. split; [reflexivity |]. cbn [fst].
  split.
  { rewrite emit_items_eq, lexLiteral_loop_items, emit_items_eq, Hi.
    rewrite <- app_assoc. reflexivity. }
  split; [reflexivity | split; [reflexivity | split]].
  - cbn [pos].
    assert (Hst : forall n esc x, start (lexLiteral_loop n esc x) = start x).
    { induction n as [| n IH]; intros esc x; simpl;
        destruct (_ =? _); try reflexivity;
        destruct (negb esc && _); try reflexivity.
      rewrite IH. apply next_start. }
    rewrite Hst. cbn [start emit with_start]. apply Ho.
    rewrite Hp. discriminate.
  - apply (lexLiteral_loop_exit _ false (emit tEQUAL l1)). lia.
Qed.

End Pieces.

Section Runs.

Local Open Scope Z_scope.

Lemma Forall_removelast {A} (P : A -> Prop) (l : list A) :
  Forall P l -> Forall P (removelast l).
Proof.
  induction 1 as [| x l Hx Hl IH]; simpl; [constructor |].
  destruct l; [constructor | constructor; assumption].
Qed.

Lemma shape_stop l l' pre e :
  items l' = items l ++ pre ++ [e] ->
  Forall (fun it => ~ ends_scan it) pre -> ends_scan e ->
  run_shape l (l', None).
Proof.
  intros Hi Hp He. exists (pre ++ [e]). split; [exact Hi |].
  rewrite removelast_last. split; [exact Hp |].
  split; [| reflexivity]. intros _. exists e.
  split; [apply last_snoc | exact He].
Qed.

Lemma shape_go l l' its s :
  items l' = items l ++ its ->
  Forall (fun it => ~ ends_scan it) its ->
  run_shape l (l', Some s).
Proof.
  intros Hi Hp. exists its. split; [exact Hi |].
  split; [apply Forall_removelast, Hp |].
  split; [discriminate |]. intros (it & Hl & He). exfalso.
  apply last_Some_elem_of in Hl.
  rewrite Forall_forall in Hp. exact (Hp it Hl He).
Qed.

Lemma shape_items l l0 r :
  items l = items l0 -> run_shape l0 r -> run_shape l r.
Proof. intros H (its & H1 & H2). exists its. rewrite H. auto. Qed.

Lemma singles_not_ends r t : singles r = Some t -> t <> tEOF /\ t <> tERROR.
Proof.
  unfold singles.
  repeat (destruct (_ =? _); [intros [= <-]; split; discriminate |]).
  discriminate.
Qed.

Ltac items_eq := apply (f_equal2 app); [congruence | reflexivity].

Ltac not_ends :=
  repeat (constructor;
          [let H := fresh in
           unfold ends_scan; intros [H | H]; simpl in H; congruence |]);
  constructor.

Lemma run_lexGroup_shape l : run_shape l (run_lexGroup l).
Proof.
  unfold run_lexGroup, syntaxError, gatherID.
  pose proof (lexer_expect_items "@$$" l) as [H1t H1f].
  destruct (lexer_expect "@$$" l) as [[] l1]; cbn [negb fst snd] in *.
  2: { eapply (shape_stop l l1 []); [apply H1f; reflexivity | constructor |].
       right. reflexivity. }
  pose proof (H1t eq_refl) as Hi1. clear H1t H1f.
  pose proof (next_items l1) as Hi2. destruct (next l1) as [r l2].
  cbn [snd] in Hi2.
  assert (Hid : forall t close, t <> tEOF -> t <> tERROR ->
    run_shape l
      (let '(id, l3) := gatherID_loop (remaining l2) "" l2 in
       if (String.length id =? 0)%nat then (emitErrorf "Bad ID" l3, None)
       else
         let '(ok, l4) := lexer_expect close l3 in
         if negb ok then (l4, None)
         else (emit t l4, Some lexDefault))).
  { intros t close Ht1 Ht2.
    pose proof (gatherID_loop_items (remaining l2) "" l2) as Hi3.
    destruct (gatherID_loop _ _ l2) as [id l3]. cbn [snd] in Hi3.
    destruct (_ =? _)%nat.
    - eapply (shape_stop l _ []);
        [rewrite emitErrorf_items_eq; simpl; items_eq
        | constructor | right; reflexivity].
    - pose proof (lexer_expect_items close l3) as [H4t H4f].
      destruct (lexer_expect close l3) as [[] l4]; cbn [negb fst snd] in *.
      + pose proof (H4t eq_refl) as Hi4.
        eapply shape_go; [rewrite emit_items_eq; items_eq |].
        not_ends.
      + eapply (shape_stop l l4 []);
          [rewrite (H4f eq_refl); simpl; items_eq
          | constructor | right; reflexivity]. }
  destruct (r =? rune_of "{"); [apply Hid; discriminate |].
  destruct (r =? rune_of "}").
  2: { eapply (shape_stop l _ []);
         [rewrite emitErrorf_items_eq; simpl; items_eq
         | constructor | right; reflexivity]. }
  destruct (peek l2 =? rune_of "~"); [| apply Hid; discriminate].
  pose proof (lexer_expect_items "~~}@" l2) as [H4t H4f].
  destruct (lexer_expect "~~}@" l2) as [[] l4]; cbn [negb fst snd] in *.
  - pose proof (H4t eq_refl) as Hi4.
    eapply shape_go; [rewrite emit_items_eq; items_eq |]. not_ends.
  - eapply (shape_stop l l4 []);
      [rewrite (H4f eq_refl); simpl; items_eq
      | constructor | right; reflexivity].
Qed.

Lemma lexDefault_loop_shape n l :
  (remaining l <= n)%nat -> run_shape l (lexDefault_loop n l).
Proof.
  revert l. induction n as [| n IH]; intros l Hn.
  - simpl. rewrite (peek_at_end l) by lia. rewrite Z.eqb_refl.
    eapply (shape_stop l _ []); [reflexivity | constructor | left; reflexivity].
  - simpl. destruct (Z.eqb_spec (peek l) EOF) as [E | E].
    { eapply (shape_stop l _ []);
        [reflexivity | constructor | left; reflexivity]. }
    destruct (isSpace (peek l)).
    { eapply shape_items; [| apply IH].
      - simpl. symmetry. apply next_items.
      - pose proof (next_rounds l n E Hn). unfold remaining in *. simpl. lia. }
    destruct (singles (peek l)) as [t |] eqn:Es.
    { destruct (singles_not_ends _ _ Es).
      eapply shape_go; [rewrite emit_items_eq, next_items; reflexivity |].
      not_ends. }
    destruct (_ =? rune_of "^").
    { unfold gatherID, syntaxError.
      pose proof (gatherID_loop_items
                    (remaining (emit tCARET (snd (next l)))) ""
                    (emit tCARET (snd (next l)))) as Hi.
      destruct (gatherID_loop _ _ _) as [id l2]. cbn [snd] in Hi.
      rewrite emit_items_eq, next_items in Hi.
      destruct (_ =? _)%nat.
      - eapply shape_stop with (pre := [_]);
          [rewrite emitErrorf_items_eq, Hi, <- app_assoc; reflexivity
          | not_ends | right; reflexivity].
      - eapply shape_go;
          [rewrite emit_items_eq, Hi, <- app_assoc; reflexivity | not_ends]. }
    assert (Hh : forall s, run_shape l (l, Some s)).
    { intros s. eapply shape_go; [symmetry; apply app_nil_r | constructor]. }
    destruct (_ =? rune_of "/"); [apply Hh |].
    destruct (_ =? rune_of "="); [apply Hh |].
    destruct (_ || _); [apply Hh |].
    destruct (_ =? rune_of "@"); [apply Hh |].
    eapply (shape_stop l _ []);
      [reflexivity | constructor | right; reflexivity].
Qed.

Lemma run_has_shape s l : run_shape l (run s l).
Proof.
  destruct s; cbn [run].
  - apply lexDefault_loop_shape. lia.
  - unfold run_lexLiteral. pose proof (next_items l) as Hi.
    destruct (next l) as [r l1]. cbn [snd] in Hi. destruct (negb _).
    + eapply (shape_stop l _ []);
        [rewrite emitErrorf_items_eq; simpl;
         items_eq
        | constructor | right; reflexivity].
    + eapply shape_go;
        [rewrite emit_items_eq, lexLiteral_loop_items, emit_items_eq, Hi,
           <- app_assoc; reflexivity | not_ends].
  - destruct (run_lexComment_shape l) as [(H1 & H2) | (H1 & H2)];
      destruct (run_lexComment l) as [l' st]; cbn [fst snd] in *; subst st.
    + eapply shape_go; [rewrite H2; symmetry; apply app_nil_r | constructor].
    + eapply (shape_stop l _ []); [exact H2 | constructor | right; reflexivity].
  - unfold run_lexName. eapply shape_go;
      [rewrite emit_items_eq, lexName_loop_items; reflexivity | not_ends].
  - apply run_lexGroup_shape.
Qed.

(** X8.  What a run of a state sends.  The items are added at the back of
    the channel, only the last of them can be the end or an error, and the state
    returned is nil exactly when the last one is: after the end or an error
    the scanner sends nothing more. *)
Theorem run_ends_with_eof_or_error (s : stateFn) (l : lexer) :
  exists its,
    items (fst (run s l)) = items l ++ its /\
    Forall (fun it => ~ ends_scan it) (removelast its) /\
    (snd (run s l) = None <-> exists it, last its = Some it /\ ends_scan it).
Proof. exact (run_has_shape s l). Qed.

(** *** Blank input *)

Lemma get_in_range s n :
  (n < String.length s)%nat -> exists c, String.get n s = Some c.
Proof.
  revert n. induction s as [| a s IH]; intros n H; simpl in *; [lia |].
  destruct n; [eauto | apply IH; lia].
Qed.

Lemma peek_get l :
  (0 < remaining l)%nat ->
  exists c, String.get (offset (curr l)) (input l) = Some c /\
            peek l = rune_of c.
Proof.
  intros H. unfold remaining in H.
  destruct (get_in_range (input l) (offset (curr l))) as [c Hc]; [lia |].
  exists c. split; [exact Hc |]. unfold peek.
  destruct (Nat.leb_spec (String.length (input l)) (offset (curr l))); [lia |].
  rewrite Hc. reflexivity.
Qed.

Lemma lexDefault_loop_blank n l :
  (forall i c, String.get i (input l) = Some c -> isSpace (rune_of c) = true) ->
  (remaining l <= n)%nat ->
  exists l', lexDefault_loop n l = (emit tEOF l', None) /\
             items l' = items l.
Proof.
  revert l. induction n as [| n IH]; intros l Hb Hn.
  - simpl. rewrite (peek_at_end l) by lia. rewrite Z.eqb_refl. eauto.
  - simpl. destruct (Z.eqb_spec (peek l) EOF) as [E | E]; [eauto |].
    destruct (peek_get l (peek_not_EOF l E)) as (c & Hc & Hp).
    rewrite Hp, (Hb _ _ Hc).
    destruct (IH (with_start (snd (next l)) (curr (snd (next l)))))
      as (l' & H1 & H2).
    + simpl. rewrite next_input. exact Hb.
    + pose proof (next_rounds l n E Hn). unfold remaining in *. simpl. lia.
    + exists l'. split; [exact H1 |]. rewrite H2. simpl. apply next_items.
Qed.

(** X9.  An input of white space only (the empty input too) parses to no
    table and no error. *)
Theorem blank_input_parses_to_nothing (file inp : string) (fuel : nat) :
  (forall i c, String.get i inp = Some c -> isSpace (rune_of c) = true) ->
  outcome_of (slurp (S fuel) file inp) = Returned ∅ None.
Proof.
  intros Hb. unfold slurp, Parse. simpl.
  destruct (lexDefault_loop_blank (remaining (newLexer inp)) (newLexer inp) Hb
              (Nat.le_refl _)) as (l' & H1 & H2).
  unfold bind at 1, peekTok. simpl peeked. cbv iota.
  unfold bind at 1, lex_nextItem, nextItem.
  simpl lex. rewrite Nat.add_comm. simpl nextItem_loop.
  unfold run_lexDefault. rewrite H1. simpl in H2.
  destruct (remaining (newLexer inp)); simpl; rewrite H2; reflexivity.
Qed.

End Runs.

(** ** The scanner terminates *)

Section Progress.

Local Open Scope Z_scope.

Lemma lexLiteral_loop_remaining n esc l :
  (remaining (lexLiteral_loop n esc l) <= remaining l)%nat.
Proof.
  revert esc l. induction n as [| n IH]; intros esc l; simpl;
    destruct (_ =? _); try lia; destruct (negb esc && _); try lia.
  etransitivity; [apply IH | apply next_remaining_le].
Qed.

Lemma lexName_loop_remaining n first l :
  (remaining (lexName_loop n first l) <= remaining l)%nat.
Proof.
  revert first l. induction n as [| n IH]; intros first l; simpl;
    destruct (negb _); try lia.
  etransitivity; [apply IH | apply next_remaining_le].
Qed.

Lemma lexer_expect_loop_remaining whole s l :
  (remaining (snd (lexer_expect_loop whole s l)) <= remaining l)%nat /\
  (fst (lexer_expect_loop whole s l) = true ->
   (remaining (snd (lexer_expect_loop whole s l)) + String.length s
    = remaining l)%nat).
Proof.
  revert l. induction s as [| c s IH]; intros l; simpl; [lia |].
  pose proof (next_remaining_le l) as Hle.
  pose proof (next_remaining l) as Hs.
  destruct (next l) as [r l1]. cbn [fst snd] in *.
  destruct (Z.eqb_spec r (rune_of c)) as [-> | Hr]; cbn [negb fst snd].
  - destruct (IH l1) as [H1 H2]. specialize (Hs (rune_of_not_EOF c)).
    split; [lia |]. intros Ht. specialize (H2 Ht). lia.
  - split; [exact Hle | discriminate].
Qed.

Lemma name_start_EOF : name_start EOF = false.
Proof. reflexivity. Qed.

Lemma run_lexGroup_work l :
  (2 * remaining (fst (run_lexGroup l)) + rank (snd (run_lexGroup l))
   < 2 * remaining l + 1)%nat /\
  snd (run_lexGroup l) <> Some lexName.
Proof.
  unfold run_lexGroup, syntaxError, gatherID, lexer_expect.
  destruct (lexer_expect_loop_remaining "@$$" "@$$" l) as [H1 H1t].
  destruct (lexer_expect_loop _ _ l) as [[] l1]; cbn [negb fst snd] in *.
  2: { simpl. split; [lia | discriminate]. }
  specialize (H1t eq_refl). simpl in H1t.
  pose proof (next_remaining_le l1) as H2. destruct (next l1) as [r l2].
  cbn [snd] in H2.
  assert (Hid : forall t close,
    let res :=
      (let '(id, l3) := gatherID_loop (remaining l2) "" l2 in
       if (String.length id =? 0)%nat then (emitErrorf "Bad ID" l3, None)
       else
         let '(ok, l4) := lexer_expect_loop close close l3 in
         if negb ok then (l4, None)
         else (emit t l4, Some lexDefault)) in
    (2 * remaining (fst res) + rank (snd res) < 2 * remaining l + 1)%nat /\
    snd res <> Some lexName).
  { intros t close.
    pose proof (gatherID_loop_remaining (remaining l2) "" l2) as H3.
    destruct (gatherID_loop _ _ l2) as [id l3]. cbn [snd] in H3.
    destruct (_ =? _)%nat; cbn [fst snd rank].
    - unfold emitErrorf, remaining in *. simpl. split; [lia | discriminate].
    - destruct (lexer_expect_loop_remaining close close l3) as [H4 _].
      destruct (lexer_expect_loop close close l3) as [[] l4];
        cbn [negb fst snd rank] in *;
        unfold emit, remaining in *; simpl; (split; [lia | discriminate]). }
  destruct (r =? rune_of "{"); [apply Hid |].
  destruct (r =? rune_of "}").
  2: { cbn [fst snd rank]. unfold emitErrorf, remaining in *. simpl.
       split; [lia | discriminate]. }
  destruct (peek l2 =? rune_of "~"); [| apply Hid].
  destruct (lexer_expect_loop_remaining "~~}@" "~~}@" l2) as [H4 _].
  destruct (lexer_expect_loop _ _ l2) as [[] l4];
    cbn [negb fst snd rank] in *;
    unfold emit, remaining in *; simpl; (split; [lia | discriminate]).
Qed.

Lemma lexDefault_loop_work n l :
  (remaining l <= n)%nat ->
  (2 * remaining (fst (lexDefault_loop n l)) + rank (snd (lexDefault_loop n l))
   < 2 * remaining l + 2)%nat /\
  (snd (lexDefault_loop n l) = Some lexName ->
   name_start (peek (fst (lexDefault_loop n l))) = true).
Proof.
  revert l. induction n as [| n IH]; intros l Hn.
  - simpl. rewrite (peek_at_end l) by lia. rewrite Z.eqb_refl.
    cbn [fst snd rank]. unfold emit, remaining in *. simpl.
    split; [lia | discriminate].
  - simpl. destruct (Z.eqb_spec (peek l) EOF) as [E | E].
    { cbn [fst snd rank]. unfold emit, remaining in *. simpl.
      split; [lia | discriminate]. }
    pose proof (next_peek l (peek_not_EOF l E)) as Hnx.
    destruct (isSpace (peek l)).
    { destruct (IH (with_start (snd (next l)) (curr (snd (next l)))))
        as [H1 H2].
      - unfold remaining in *. simpl. lia.
      - split; [| exact H2]. unfold remaining in *. simpl in *. lia. }
    destruct (singles (peek l)) as [t |].
    { cbn [fst snd rank]. unfold emit, remaining in *. simpl.
      split; [lia | discriminate]. }
    destruct (_ =? rune_of "^").
    { unfold gatherID, syntaxError.
      pose proof (gatherID_loop_remaining
                    (remaining (emit tCARET (snd (next l)))) ""
                    (emit tCARET (snd (next l)))) as Hg.
      destruct (gatherID_loop _ _ _) as [id l2]. cbn [snd] in Hg.
      destruct (_ =? _)%nat; cbn [fst snd rank];
        unfold emit, emitErrorf, remaining in *; simpl in *;
        (split; [lia | discriminate]). }
    destruct (_ =? rune_of "/");
      [cbn [fst snd rank]; split; [lia | discriminate] |].
    destruct (_ =? rune_of "=");
      [cbn [fst snd rank]; split; [lia | discriminate] |].
    destruct (_ || _) eqn:En;
      [cbn [fst snd rank]; split; [lia | intros _; exact En] |].
    destruct (_ =? rune_of "@");
      [cbn [fst snd rank]; split; [lia | discriminate] |].
    cbn [fst snd rank]. unfold syntaxError, emitErrorf, remaining in *. simpl.
    split; [lia | discriminate].
Qed.

Lemma run_work s l :
  (s = lexName -> name_start (peek l) = true) ->
  (2 * remaining (fst (run s l)) + rank (snd (run s l))
   < 2 * remaining l + rank (Some s))%nat /\
  (snd (run s l) = Some lexName -> name_start (peek (fst (run s l))) = true).
Proof.
  intros Hs. destruct s; cbn [run rank].
  - apply lexDefault_loop_work. lia.
  - unfold run_lexLiteral.
    pose proof (next_remaining_le l) as Hle.
    pose proof (next_remaining l) as Hnx.
    destruct (next l) as [r l1]. cbn [fst snd] in *.
    destruct (Z.eqb_spec r (rune_of "=")) as [-> | Hr]; cbn [negb fst snd rank].
    + specialize (Hnx (rune_of_not_EOF _)).
      pose proof (lexLiteral_loop_remaining (remaining (emit tEQUAL l1)) false
                    (emit tEQUAL l1)) as Hl.
      split; [| discriminate].
      change (remaining (emit tLITERAL ?x)) with (remaining x).
      change (remaining (emit tEQUAL l1)) with (remaining l1) in Hl at 2.
      lia.
    + split; [| discriminate].
      change (remaining (emitErrorf ?m ?x)) with (remaining x). lia.
  - unfold run_lexComment.
    pose proof (next_remaining_le l) as Hle.
    pose proof (next_remaining l) as Hnx.
    destruct (next l) as [r l1]. cbn [fst snd] in *.
    destruct (Z.eqb_spec r (rune_of "/")) as [-> | Hr]; cbn [negb fst snd rank].
    2: { split; [| discriminate].
         change (remaining (emitErrorf ?m ?x)) with (remaining x). lia. }
    specialize (Hnx (rune_of_not_EOF _)).
    pose proof (next_remaining_le l1) as Hle1.
    destruct (next l1) as [r1 l2]. cbn [fst snd] in *.
    destruct (negb _); cbn [fst snd rank].
    { split; [| discriminate].
      change (remaining (emitErrorf ?m ?x)) with (remaining x). lia. }
    pose proof (lexComment_loop_remaining (remaining l2) l2) as Hl.
    split; [| discriminate].
    change (remaining (with_start ?x ?c)) with (remaining x). lia.
  - unfold run_lexName. cbn [fst snd rank]. split; [| discriminate].
    change (remaining (emit tNAME ?x)) with (remaining x).
    specialize (Hs eq_refl).
    assert (E : peek l <> EOF).
    { intros E. rewrite E in Hs. discriminate. }
    pose proof (next_peek l (peek_not_EOF l E)) as Hnx.
    destruct (remaining l) as [| n] eqn:Er; [lia |].
    simpl. unfold name_start in Hs. rewrite Hs. cbn [orb negb].
    pose proof (lexName_loop_remaining n false (snd (next l))). lia.
  - destruct (run_lexGroup_work l) as [H1 H2]. split; [exact H1 |].
    intros H. contradiction.
Qed.

Lemma scanning_pop l it rest :
  scanning l -> items l = it :: rest -> ~ ends_scan it ->
  scanning (with_items l rest).
Proof.
  intros (Ha & Hb & Hc) Hi Hn. rewrite Hi in *. repeat split.
  - simpl. destruct rest; [constructor |]. inversion Ha; assumption.
  - simpl. intros Hs. apply Hb in Hs as (e & He1 & He2).
    destruct rest as [| x rest].
    + simpl in He1. injection He1 as <-. contradiction.
    + exists e. split; [| exact He2]. rewrite last_cons_cons in He1. exact He1.
  - simpl. intros (e & He1 & He2). apply Hb. exists e. split; [| exact He2].
    destruct rest; [discriminate |]. rewrite last_cons_cons. exact He1.
  - exact Hc.
Qed.

Lemma run_scanning s l :
  items l = [] -> (s = lexName -> name_start (peek l) = true) ->
  run_shape l (run s l) ->
  scanning (with_state (fst (run s l)) (snd (run s l))).
Proof.
  intros Hi Hs (its & H1 & H2 & H3). rewrite Hi in H1. simpl in H1.
  repeat split; simpl.
  - rewrite H1. exact H2.
  - rewrite H1. apply H3.
  - rewrite H1. apply H3.
  - apply (run_work s l Hs).
Qed.

End Progress.

Section TokenDump.

Lemma nextItem_loop_work n l :
  scanning l -> nextItem_loop n l <> LStuck ->
  exists it l',
    nextItem_loop n l = LItem it l' /\ work l' < work l /\
    (~ ends_scan it -> scanning l').
Proof.
  revert l. induction n as [| n IH]; intros l Hsc Hns.
  - simpl in *. destruct (items l) as [| it rest] eqn:Ei.
    + destruct Hsc as (_ & Hb & _). destruct (state l).
      * congruence.
      * destruct (proj1 Hb eq_refl) as (e & He & _). rewrite Ei in He.
        discriminate.
    + exists it, (with_items l rest). split; [reflexivity |].
      split; [unfold work, remaining; rewrite Ei; simpl; lia |].
      intros Hn. eapply scanning_pop; eassumption.
  - simpl in *. destruct (items l) as [| it rest] eqn:Ei.
    + pose proof Hsc as (_ & Hb & Hc). destruct (state l) as [s |] eqn:Es.
      2: { destruct (proj1 Hb eq_refl) as (e & He & _). rewrite Ei in He.
           discriminate. }
      assert (Hs : s = lexName -> name_start (peek l) = true).
      { intros ->. apply Hc. reflexivity. }
      pose proof (run_scanning s l Ei Hs (run_has_shape s l)) as Hsc1.
      pose proof (run_work s l Hs) as [Hw _].
      pose proof (run_items_le_2 s l) as Hl. rewrite Ei in Hl. simpl in Hl.
      destruct (run s l) as [l1 s1]. cbn [fst snd] in *.
      destruct (IH (with_state l1 s1) Hsc1 Hns) as (it & l' & H1 & H2 & H3).
      exists it, l'. split; [exact H1 |]. split; [| exact H3].
      unfold work, remaining in *. rewrite Ei, Es. simpl in *. lia.
    + exists it, (with_items l rest). split; [reflexivity |].
      split; [unfold work, remaining; rewrite Ei; simpl; lia |].
      intros Hn. eapply scanning_pop; eassumption.
Qed.

Lemma dumpToks_scanning n l :
  scanning l -> work l < n -> dump_complete (dumpToks n l).
Proof.
  revert l. induction n as [| n IH]; intros l Hsc Hw; [lia |].
  simpl.
  destruct (nextItem_loop_work (remaining l + 2) l Hsc (nextItem_not_stuck l))
    as (it & l' & H1 & H2 & H3).
  unfold nextItem. rewrite H1.
  destruct (decide (typ it = tEOF)) as [E | E].
  { exists [], (typ it, val it). repeat split; [left; exact E | constructor]. }
  destruct (decide (typ it = tERROR)) as [E' | E'].
  { exists [], (typ it, val it).
    repeat split; [right; exact E' | constructor]. }
  destruct (IH l') as (toks & lst & Ht & Hl & Hf).
  - apply H3. intros [? | ?]; contradiction.
  - lia.
  - exists ((typ it, val it) :: toks), lst. rewrite Ht.
    split; [reflexivity |]. split; [exact Hl |].
    constructor; [split; assumption | exact Hf].
Qed.

(** X19.  The scanner terminates.  The dump of any input comes to its end,
    more than [6 * len + 6] rounds being enough for it: it ends with the
    end-of-input item or with one error item, and no item before that is
    either. *)
Theorem dumpToks_ends (inp : string) (n : nat) :
  6 * String.length inp + 6 < n ->
  dump_complete (dumpToks n (newLexer inp)).
Proof.
  intros Hn. apply dumpToks_scanning.
  - repeat split; simpl; try constructor; try discriminate.
    intros (e & He & _). discriminate.
  - unfold work, remaining. simpl. lia.
Qed.

Lemma dumpToks_ends_witness :
  dump_complete (dumpToks 100 (newLexer "<(1=a)> // x")).
Proof. apply dumpToks_ends. simpl. lia. Defined.

End TokenDump.

(** ** Lines and columns *)

Section Places.











End Places.

(** ** Look-ahead, references and oids *)

Section Lookahead.

Lemma peekTok_next p p1 tok :
  peekTok p = Ret tok p1 ->
  nextTok p1 = Ret tok (with_peeked p1 None) /\ err p1 = err p.
Proof.
  unfold peekTok, bind, lex_nextItem. destruct (peeked p) as [t |] eqn:E.
  - intros [= <- <-]. unfold nextTok. rewrite E. auto.
  - destruct (nextItem (lex p)) as [it l' | |]; try discriminate.
    intros [= <- <-]. unfold nextTok. simpl. auto.
Qed.

(** X10.  Look-ahead.  After [peekTok] the item is kept: peeking again gives
    it again and changes nothing, [nextTok] gives it and clears the
    look-ahead; errors and dictionaries are untouched. *)
Theorem peek_then_next (p p1 : parser) (tok : item) :
  peekTok p = Ret tok p1 ->
  peeked p1 = Some tok /\
  peekTok p1 = Ret tok p1 /\
  nextTok p1 = Ret tok (with_peeked p1 None) /\
  err p1 = err p /\ dicts p1 = dicts p.
Proof.
  unfold peekTok, bind, lex_nextItem. destruct (peeked p) as [t |] eqn:E.
  - intros [= <- <-]. unfold nextTok. rewrite E. auto.
  - destruct (nextItem (lex p)) as [it l' | |]; try discriminate.
    intros [= <- <-]. unfold nextTok. simpl. auto.
Qed.

Lemma entry_Some d ns id v :
  entry d ns id = Some v -> exists m, d !! ns = Some m /\ m !! id = Some v.
Proof.
  unfold entry. destruct (d !! ns) as [m |]; [eauto | discriminate].
Qed.

(** X11.  [resolve] with no error recorded: an id defined in the namespace
    gives its value and changes nothing; an id that is not gives the empty
    string and records the bad-alias error for that id and namespace; the
    namespace then has a dictionary, and no entry has changed. *)
Theorem resolve_found_or_bad_alias (p : parser) (id ns : string) :
  err p = None ->
  match entry (dicts p) ns id with
  | Some v => resolve id ns p = Ret v p
  | None =>
      exists p',
        resolve id ns p = Ret "" p' /\
        err p' = Some (ErrBadAlias (filename p) id ns) /\
        is_Some (dicts p' !! ns) /\
        same_entries p p'
  end.
Proof.
  intros He. unfold resolve, entry, bind, dict. rewrite He.
  destruct (dicts p !! ns) as [m |] eqn:Em.
  - destruct (m !! id) as [v |] eqn:Ev; [reflexivity |].
    eexists. split; [reflexivity |]. simpl. rewrite Em.
    split; [reflexivity |]. split; [eauto |]. intros a b. reflexivity.
  - rewrite lookup_empty. eexists. split; [reflexivity |]. simpl.
    rewrite lookup_insert_eq. split; [reflexivity |]. split; [eauto |].
    intros a b. apply (same_entries_dict p ns Em a b).
Qed.

(** *** References and oids *)

Lemma expect_match p t tok p1 :
  err p = None -> nextTok p = Ret tok p1 -> typ tok = t ->
  expect t p = Ret tok p1 /\ err p1 = None.
Proof.
  intros He Hn Ht. split.
  - unfold expect. rewrite He. eapply bind_Ret_eq; [exact Hn |].
    rewrite decide_False by (intros H; apply H, Ht). reflexivity.
  - pose proof (nextTok_err p) as H. rewrite Hn in H. congruence.
Qed.

Lemma expectID_hex p tok p1 :
  err p = None -> nextTok p = Ret tok p1 -> typ tok = tNAME ->
  all_hex (val tok) = true ->
  expectID p = Ret (val tok) p1 /\ err p1 = None.
Proof.
  intros He Hn Ht Hh.
  destruct (expect_match p tNAME tok p1 He Hn Ht) as [Hx He1].
  split; [| exact He1]. unfold expectID.
  eapply bind_Ret_eq; [exact Hx |]. unfold bind, get_err. rewrite He1, Hh.
  reflexivity.
Qed.

(** X12.  The namespace of a reference.  After [^] and a hex id, a
    reference with no colon is resolved in the default namespace it was called
    with, and [^id:ns] in the namespace written. *)
Theorem expectRef_namespace
    (ns : string) (p p1 p2 p3 : parser) (tc tn tk : item) :
  err p = None ->
  nextTok p = Ret tc p1 -> typ tc = tCARET ->
  nextTok p1 = Ret tn p2 -> typ tn = tNAME -> all_hex (val tn) = true ->
  peekTok p2 = Ret tk p3 ->
  (typ tk <> tCOLON -> expectRef ns p = resolve (val tn) ns p3) /\
  (typ tk = tCOLON ->
   forall tns p5,
     nextTok (with_peeked p3 None) = Ret tns p5 -> typ tns = tNAME ->
     expectRef ns p = resolve (val tn) (val tns) p5).
Proof.
  intros He Hc Htc Hn Htn Hh Hk.
  destruct (expect_match p tCARET tc p1 He Hc Htc) as [Hx He1].
  destruct (expectID_hex p1 tn p2 He1 Hn Htn Hh) as [Hi He2].
  destruct (peekTok_next p2 p3 tk Hk) as (Hnx & He3).
  split.
  - intros Hne. unfold expectRef.
    eapply bind_Ret_eq; [exact Hx |].
    eapply bind_Ret_eq; [exact Hi |].
    eapply bind_Ret_eq; [exact Hk |].
    rewrite decide_False by exact Hne. reflexivity.
  - intros Heq tns p5 Hns Htns. unfold expectRef.
    eapply bind_Ret_eq; [exact Hx |].
    eapply bind_Ret_eq; [exact Hi |].
    eapply bind_Ret_eq; [exact Hk |].
    rewrite decide_True by exact Heq.
    eapply bind_Ret_eq; [| reflexivity].
    eapply bind_Ret_eq; [exact Hnx |].
    eapply bind_Ret_eq; [| reflexivity].
    apply (expect_match (with_peeked p3 None) tNAME tns p5);
      [simpl; congruence | exact Hns | exact Htns].
Qed.

(** X13.  The scope of an oid.  After the id: no colon, the scope is empty
    (the default namespace is not used for it); [:^ref], the scope is what the
    reference resolves to, in the default namespace; [:name], the scope is
    that name. *)
Theorem expectOID_scope_forms
    (ns : string) (p p1 p2 : parser) (id : string) (tk : item) :
  expectID p = Ret id p1 -> err p1 = None -> peekTok p1 = Ret tk p2 ->
  (typ tk <> tCOLON -> expectOID ns p = Ret (id, "") p2) /\
  (typ tk = tCOLON ->
   forall tk2 p3,
     peekTok (with_peeked p2 None) = Ret tk2 p3 ->
     (typ tk2 = tCARET ->
      forall v p4, expectRef ns p3 = Ret v p4 ->
                   expectOID ns p = Ret (id, v) p4) /\
     (typ tk2 = tNAME ->
      expectOID ns p = Ret (id, val tk2) (with_peeked p3 None))).
Proof.
  intros Hi He1 Hk. split.
  - intros Hne. eapply expectOID_no_colon; eassumption.
  - intros Heq tk2 p3 Hk2.
    destruct (peekTok_next p1 p2 tk Hk) as (Hnx & He2).
    destruct (peekTok_next _ p3 tk2 Hk2) as (Hnx3 & He3).
    simpl in He3.
    split; intros Ht; [intros v p4 Hr |]; unfold expectOID;
      (eapply bind_Ret_eq; [exact Hi |]);
      (eapply bind_Ret_eq; [exact Hk |]);
      rewrite decide_True by exact Heq;
      (eapply bind_Ret_eq; [| reflexivity]);
      (eapply bind_Ret_eq; [exact Hnx |]);
      (eapply bind_Ret_eq; [exact Hk2 |]).
    + rewrite decide_True by exact Ht. exact Hr.
    + rewrite decide_False by (rewrite Ht; discriminate).
      eapply bind_Ret_eq; [| reflexivity].
      apply (expect_match p3 tNAME tk2 _); [congruence | exact Hnx3 | exact Ht].
Qed.

End Lookahead.

(** ** Cells and unexpected items *)

Section Constructs.

Lemma expectCell_err_entry p :
  err p <> None ->
  match expectCell p with
  | Ret _ p' | Panic _ p' => err p' <> None
  | OutOfFuel => True
  end.
Proof.
  intros He. destruct (err p) as [e |] eqn:E; [| congruence].
  pose proof (preserves_expectCell sticky sticky_refl sticky_trans sticky_lex
                sticky_peeked sticky_err sticky_dict p) as H.
  destruct (expectCell p) as [a p' | v p' |]; auto;
    rewrite (H e E); discriminate.
Qed.

Lemma expectCells_loop_error fuel out p m p' :
  expectCells_loop fuel out p = Ret m p' -> err p' <> None ->
  m = ∅ \/ (m = out /\ err p <> None).
Proof.
  revert out p. induction fuel as [| fuel IH]; intros out p; [discriminate |].
  simpl. unfold bind at 1.
  pose proof (peekTok_err p) as Hpe.
  destruct (peekTok p) as [tok p1 | |]; try discriminate.
  destruct (decide (typ tok <> tLPAREN)).
  - intros [= <- <-] He. right. split; [reflexivity | congruence].
  - unfold bind at 1.
    destruct (expectCell p1) as [[name value] p2 | |]; try discriminate.
    unfold bind, get_err. destruct (err p2) eqn:E2.
    + intros [= <- <-] _. left. reflexivity.
    + intros H He. destruct (IH _ _ H He) as [Hm | [_ Hc]]; [left; exact Hm |].
      congruence.
Qed.

(** X14.  [expectCells] is all or nothing: whenever it returns with an
    error recorded, it returns no cell, also not those read before the
    error. *)
Theorem expectCells_error_gives_no_cells
    (fuel : nat) (p p' : parser) (m : gmap string string) :
  expectCells fuel p = Ret m p' -> err p' <> None -> m = ∅.
Proof.
  intros H He.
  destruct (expectCells_loop_error fuel ∅ p m p' H He) as [Hm | [Hm _]];
    exact Hm.
Qed.

(** X16.  An item that can start nothing.  At the top level, and inside a
    group, an item that is none of those the loop knows makes the loop return
    at once, with the Unexpected error for that item recorded and the tables as
    they were; the item stays in the look-ahead. *)
Theorem unexpected_item_is_an_error :
  (forall fuel tabs p tok p1,
      peekTok p = Ret tok p1 ->
      typ tok <> tEOF -> typ tok <> tLANGLE -> typ tok <> tLSQUARE ->
      typ tok <> tLBRACE -> typ tok <> tGROUPSTART ->
      Parse_loop (S fuel) tabs p =
      Ret (tabs, Some (ErrUnexpected (filename p) tok))
        (with_err p1 (Some (ErrUnexpected (filename p) tok)))) /\
  (forall fuel tabs p tok p1,
      peekTok p = Ret tok p1 ->
      typ tok <> tEOF -> typ tok <> tLANGLE -> typ tok <> tLSQUARE ->
      typ tok <> tLBRACE -> typ tok <> tGROUPCOMMIT ->
      typ tok <> tGROUPABORT ->
      expectGroup_loop (S fuel) tabs p =
      Ret tabs (with_err p1 (Some (ErrUnexpected (filename p) tok)))).
Proof.
  assert (Hf : forall p tok p1, peekTok p = Ret tok p1 ->
                                filename p1 = filename p).
  { intros p tok p1. unfold peekTok, bind, lex_nextItem.
    destruct (peeked p); [intros [= _ <-]; reflexivity |].
    destruct (nextItem (lex p)); try discriminate.
    intros [= _ <-]. reflexivity. }
  split; intros fuel tabs p tok p1 Hp; intros; simpl;
    (eapply bind_Ret_eq; [exact Hp |]);
    rewrite <- (Hf _ _ _ Hp);
    destruct (typ tok); try congruence; reflexivity.
Qed.

End Constructs.

(** *** Dictionaries *)

Section Whole.

Variable R : parser -> parser -> Prop.
Hypothesis R_refl : forall p, R p p.
Hypothesis R_trans : forall p q r, R p q -> R q r -> R p r.
Hypothesis R_lex : forall p l, R p (with_lex p l).
Hypothesis R_peeked : forall p t, R p (with_peeked p t).
Hypothesis R_set : forall p e, R p (with_err p (Some e)).
Hypothesis R_dict : forall p ns,
  dicts p !! ns = None -> R p (with_dicts p (<[ns := ∅]> (dicts p))).
Hypothesis R_update :
  forall scope cells, preserves R (update_dict scope cells).

Lemma whole_err p e : err p = None -> R p (with_err p (Some e)).
Proof. intros _. apply R_set. Qed.

Ltac whole_step :=
  match goal with
  | |- preserves _ (bind _ _) =>
      apply (preserves_bind R R_trans); [| intros ?]
  | |- preserves _ (match ?x with _ => _ end) => destruct x
  | |- preserves _ (ret _) => apply (preserves_ret R R_refl)
  | |- preserves _ (fun _ => OutOfFuel) => apply preserves_cut
  | |- preserves _ get_err => apply (preserves_get_err R R_refl)
  | |- preserves _ get_filename => apply (preserves_get_filename R R_refl)
  | |- preserves _ (set_err _) => intros ?; apply R_set
  | |- preserves _ peekTok =>
      apply (preserves_peekTok R R_refl R_trans R_lex R_peeked)
  | |- preserves _ (expect _) =>
      apply (preserves_expect R R_refl R_trans R_lex R_peeked whole_err)
  | |- preserves _ (expectCells _) =>
      apply (preserves_expectCells R R_refl R_trans R_lex R_peeked
               whole_err R_dict)
  | |- preserves _ (expectDict_scope _) =>
      apply (preserves_expectDict_scope R R_refl R_trans R_lex R_peeked
               whole_err R_dict)
  | |- preserves _ (expectRow _ _) =>
      apply (preserves_expectRow R R_refl R_trans R_lex R_peeked
               whole_err R_dict)
  | |- preserves _ (expectTable _) =>
      apply (preserves_expectTable R R_refl R_trans R_lex R_peeked
               whole_err R_dict)
  | |- preserves _ (update_dict _ _) => apply R_update
  | H : _ |- _ => solve [apply H]
  end.
Ltac whole := repeat whole_step.

Lemma whole_expectDict fuel : preserves R (expectDict fuel).
Proof. unfold expectDict. whole. Qed.

Lemma whole_expectGroup_loop fuel tabs :
  preserves R (expectGroup_loop fuel tabs).
Proof.
  revert tabs. induction fuel as [| fuel IH]; intros tabs; simpl;
    [apply preserves_cut |].
  pose proof (whole_expectDict fuel).
  whole.
Qed.

Lemma whole_expectGroup fuel : preserves R (expectGroup fuel).
Proof.
  unfold expectGroup. pose proof (whole_expectGroup_loop fuel). whole.
Qed.

Lemma whole_Parse_loop fuel tabs : preserves R (Parse_loop fuel tabs).
Proof.
  revert tabs. induction fuel as [| fuel IH]; intros tabs; simpl;
    [apply preserves_cut |].
  pose proof (whole_expectDict fuel). pose proof (whole_expectGroup fuel).
  whole.
Qed.

End Whole.

Section Grows.

Lemma grows_refl p : grows p p.
Proof. intros ns id H. exact H. Qed.

Lemma grows_trans p q r : grows p q -> grows q r -> grows p r.
Proof. intros H1 H2 ns id H. apply H2, H1, H. Qed.

Lemma grows_same p p' : same_entries p p' -> grows p p'.
Proof. intros H ns id. rewrite H. auto. Qed.

Lemma grows_update scope cells : preserves grows (update_dict scope cells).
Proof.
  intros p. unfold update_dict, bind, dict.
  assert (Hg : forall q targ,
    dicts q !! scope = Some targ ->
    grows q (with_dicts q (<[scope := merge_cells cells targ]> (dicts q)))).
  { intros q targ Hq ns id [v Hv]. unfold entry in *. simpl.
    destruct (decide (scope = ns)) as [<- | Hne].
    - rewrite lookup_insert_eq. rewrite Hq in Hv.
      rewrite merge_cells_union, lookup_union, Hv.
      destruct (cells !! id); simpl; eauto.
    - rewrite lookup_insert_ne by exact Hne. eauto. }
  destruct (dicts p !! scope) as [targ |] eqn:E.
  - apply Hg, E.
  - eapply grows_trans; [apply grows_same, (same_entries_dict p scope E) |].
    apply Hg. simpl. apply lookup_insert_eq.
Qed.

(** X17.  Dictionaries only grow.  Through a whole run of the loop of
    [Parse], however it ends (return or panic; group aborts included), every
    entry there was is still there: values can be replaced, entries are never
    removed. *)
Theorem dictionaries_only_grow (fuel : nat) (tabs : gmap string Table) :
  preserves grows (Parse_loop fuel tabs).
Proof.
  apply whole_Parse_loop.
  - exact grows_refl.
  - exact grows_trans.
  - intros p l ns id H. exact H.
  - intros p t ns id H. exact H.
  - intros p e ns id H. exact H.
  - intros p ns H. apply grows_same, same_entries_dict, H.
  - exact grows_update.
Qed.

(** X18.  Rows and tables define nothing: [expectRow] and [expectTable]
    leave every dictionary entry as it was, however they end. *)
Theorem only_dicts_define_entries (fuel : nat) (ns : string) :
  entries_preserved (expectRow fuel ns) /\
  entries_preserved (expectTable fuel).
Proof.
  split; [use_entries preserves_expectRow | use_entries preserves_expectTable].
Qed.

End Grows.

(** ** Keys of the result *)

Section Keys.

Lemma yields_bind {A B} (m : M A) (k : A -> M B) Q Q' :
  yields m Q -> (forall a, Q a -> yields (k a) Q') -> yields (bind m k) Q'.
Proof.
  intros Hm Hk p b p'. unfold bind.
  destruct (m p) as [a p1 | |] eqn:E; try discriminate.
  apply (Hk a (Hm _ _ _ E)).
Qed.

Lemma yields_then {A B} (m : M A) (k : A -> M B) Q' :
  (forall a, yields (k a) Q') -> yields (bind m k) Q'.
Proof.
  intros Hk. apply (yields_bind m k (fun _ => True)); [| auto].
  intros p a p' _. exact I.
Qed.

Lemma yields_ret {A} (a : A) (Q : A -> Prop) : Q a -> yields (ret a) Q.
Proof. intros H p b p' [= <- _]. exact H. Qed.

Lemma yields_cut {A} (Q : A -> Prop) : yields (fun _ => OutOfFuel) Q.
Proof. intros p a p'. discriminate. Qed.

Lemma expectID_yields_hex : yields expectID (fun id => all_hex id = true).
Proof.
  unfold expectID. apply yields_then. intros tok. apply yields_then.
  intros [e |]; [apply yields_ret; reflexivity |].
  destruct (all_hex (val tok)) eqn:E; [apply yields_ret; exact E |].
  apply yields_then. intros f. apply yields_then. intros _.
  apply yields_ret. reflexivity.
Qed.

Lemma expectOID_yields_hex ns :
  yields (expectOID ns) (fun r => all_hex (fst r) = true).
Proof.
  unfold expectOID. eapply yields_bind; [apply expectID_yields_hex |].
  intros id Hid. apply yields_then. intros colon. apply yields_then.
  intros scope. apply yields_ret. exact Hid.
Qed.

Lemma expectRow_yields_hex fuel ns :
  yields (expectRow fuel ns) (fun r => all_hex (fst r) = true).
Proof.
  unfold expectRow. apply yields_then. intros _.
  eapply yields_bind; [apply expectOID_yields_hex |].
  intros [roid scope] Hid. apply yields_then. intros cells.
  apply yields_then. intros _. apply yields_ret. exact Hid.
Qed.

Lemma hex_rows_insert tab r row :
  hex_rows tab -> all_hex r = true ->
  hex_rows (mkTable (meta tab) (<[r := row]> (rows tab))).
Proof.
  intros Ht Hr r' row'. simpl. destruct (decide (r = r')) as [<- | Hne].
  - intros _. exact Hr.
  - rewrite lookup_insert_ne by exact Hne. apply Ht.
Qed.

Lemma expectTable_rows_yields fuel toid tscope tab :
  hex_rows tab ->
  yields (expectTable_rows fuel toid tscope tab)
    (fun r => fst r = toid /\ hex_rows (snd r)).
Proof.
  revert tab. induction fuel as [| fuel IH]; intros tab Ht; simpl;
    [apply yields_cut |].
  apply yields_then. intros tok.
  destruct (typ tok); try (apply IH; exact Ht).
  - apply yields_then. intros _. apply IH, Ht.
  - eapply yields_bind; [apply expectRow_yields_hex |].
    intros [rowID rowData] Hr. apply IH, hex_rows_insert; assumption.
  - apply yields_then. intros _. apply yields_ret.
    split; [reflexivity | exact Ht].
Qed.

Lemma hex_rows_empty m : hex_rows (mkTable m ∅).
Proof. intros r row. simpl. rewrite lookup_empty. discriminate. Qed.

Lemma expectTable_yields fuel :
  yields (expectTable fuel) (fun r => hex_key (fst r) /\ hex_rows (snd r)).
Proof.
  unfold expectTable. apply yields_then. intros _.
  eapply yields_bind; [apply (expectOID_yields_hex "c") |].
  intros [toid tscope] Hid. simpl in Hid.
  assert (Hk : hex_key (coalesce toid tscope)) by (exists toid, tscope; auto).
  assert (Hr : forall tab, hex_rows tab ->
            yields (expectTable_rows fuel (coalesce toid tscope) tscope tab)
              (fun r => hex_key (fst r) /\ hex_rows (snd r))).
  { intros tab Ht p a p' H.
    destruct (expectTable_rows_yields fuel _ _ tab Ht p a p' H) as [-> H2].
    split; assumption. }
  apply yields_then. intros tok. destruct (decide _).
  - apply yields_then. intros _. apply yields_then. intros m.
    apply yields_then. intros [|].
    + apply Hr, hex_rows_empty.
    + apply yields_ret. split; [exact Hk | apply hex_rows_empty].
  - apply Hr, hex_rows_empty.
Qed.

Lemma well_keyed_insert tabs k tab :
  well_keyed tabs -> hex_key k -> hex_rows tab ->
  well_keyed (<[k := tab]> tabs).
Proof.
  intros Hw Hk Ht k' tab'. destruct (decide (k = k')) as [<- | Hne].
  - rewrite lookup_insert_eq. intros [= <-]. split; assumption.
  - rewrite lookup_insert_ne by exact Hne. apply Hw.
Qed.

Lemma well_keyed_empty : well_keyed ∅.
Proof. intros k tab. rewrite lookup_empty. discriminate. Qed.

Lemma Parse_loop_yields fuel tabs :
  well_keyed tabs ->
  yields (Parse_loop fuel tabs) (fun r => well_keyed (fst r)).
Proof.
  revert tabs. induction fuel as [| fuel IH]; intros tabs Hw; simpl;
    [apply yields_cut |].
  apply yields_then. intros tok.
  assert (Hend : forall tabs', well_keyed tabs' ->
    yields (e <~ get_err ;
            match e with
            | Some _ => ret (tabs', e)
            | None => Parse_loop fuel tabs'
            end) (fun r => well_keyed (fst r))).
  { intros tabs' Hw'. apply yields_then. intros [e |];
      [apply yields_ret; exact Hw' | apply IH, Hw']. }
  destruct (typ tok);
    try (eapply yields_bind with (Q := well_keyed); [| exact Hend];
         repeat (apply yields_then; intros ?); apply yields_ret; exact Hw).
  - apply yields_then. intros e. apply yields_ret. exact Hw.
  - eapply yields_bind with (Q := well_keyed); [| exact Hend].
    eapply yields_bind; [apply expectTable_yields |].
    intros [toid tab] [Hk Ht]. apply yields_ret.
    apply well_keyed_insert; assumption.
Qed.

(** X15.  Keys of the result.  In whatever [Parse] returns, every table key
    is [id:scope] with [id] made of hex digits only, and so is every row id
    (the scope written in a row's oid is dropped).  (After a Not-hex error
    the id is empty.) *)
Theorem result_ids_are_hex
    (fuel : nat) (p p' : parser) (tabs : gmap string Table)
    (e : option perror) (k : string) (tab : Table) :
  Parse fuel p = Ret (tabs, e) p' ->
  tabs !! k = Some tab ->
  (exists id scope, k = coalesce id scope /\ all_hex id = true) /\
  (forall r row, rows tab !! r = Some row -> all_hex r = true).
Proof.
  intros H. apply (Parse_loop_yields fuel ∅ well_keyed_empty p _ p' H).
Qed.

Lemma result_ids_are_hex_witness :
  (exists id scope, "1f:a" = coalesce id scope /\ all_hex id = true) /\
  (forall r row,
      rows (mkTable ∅ {[ "2" := {[ "x" := "y" ]} ]}) !! r = Some row ->
      all_hex r = true).
Proof.
  eapply (result_ids_are_hex 10 (NewParser "f" (newLexer "{1f:a[2(x=y)]}"))).
  - vm_compute. reflexivity.
  - vm_compute. reflexivity.
Defined.

End Keys.

(** ** The statements at inputs *)

Lemma literal_always_two_items_witness :
  exists eq lit,
    items (fst (run_lexLiteral (newLexer "=a\)b)"))) = [eq; lit] /\
    typ eq = tEQUAL /\ typ lit = tLITERAL /\ offset (pos lit) = 1.
Proof.
  destruct (literal_always_two_items (newLexer "=a\)b)")
              ltac:(vm_compute; reflexivity))
    as (eq & lit & _ & Hi & He & Hl & Ho & _).
  exists eq, lit. auto.
Defined.

Lemma blank_input_parses_to_nothing_witness :
  outcome_of (slurp 1 "f" "   ") = Returned ∅ None.
Proof.
  apply (blank_input_parses_to_nothing "f" "   " 0).
  intros [| [| [| i]]] c; simpl; intros [= <-]; reflexivity.
Defined.

Lemma peek_then_next_witness :
  exists tok p1,
    peekTok (NewParser "f" (newLexer "<")) = Ret tok p1 /\
    peekTok p1 = Ret tok p1 /\
    nextTok p1 = Ret tok (with_peeked p1 None).
Proof.
  assert (H : exists tok p1,
             peekTok (NewParser "f" (newLexer "<")) = Ret tok p1).
  { eexists _, _. vm_compute. reflexivity. }
  destruct H as (tok & p1 & H). exists tok, p1.
  destruct (peek_then_next _ _ _ H) as (_ & H2 & H3 & _). auto.
Defined.

Lemma resolve_found_or_bad_alias_witness :
  exists p',
    resolve "1" "a" (NewParser "f" (newLexer "")) = Ret "" p' /\
    err p' = Some (ErrBadAlias "f" "1" "a").
Proof.
  destruct (resolve_found_or_bad_alias (NewParser "f" (newLexer "")) "1" "a"
              eq_refl) as (p' & H1 & H2 & _).
  exists p'. split; assumption.
Defined.

Lemma expectRef_namespace_witness :
  exists p3,
    expectRef "c" (NewParser "f" (newLexer "^1f)")) = resolve "1f" "c" p3.
Proof.
  assert (H : exists tc p1 tn p2 tk p3,
             nextTok (NewParser "f" (newLexer "^1f)")) = Ret tc p1 /\
             typ tc = tCARET /\ nextTok p1 = Ret tn p2 /\ typ tn = tNAME /\
             val tn = "1f" /\ peekTok p2 = Ret tk p3 /\ typ tk <> tCOLON).
  { eexists _, _, _, _, _, _.
    do 6 (split; [vm_compute; reflexivity |]). vm_compute. discriminate. }
  destruct H
    as (tc & p1 & tn & p2 & tk & p3 & H1 & H2 & H3 & H4 & H5 & H6 & H7).
  exists p3. rewrite <- H5.
  apply (proj1 (expectRef_namespace "c" (NewParser "f" (newLexer "^1f)"))
                  p1 p2 p3 tc tn tk
                  eq_refl H1 H2 H3 H4 ltac:(rewrite H5; reflexivity) H6)).
  exact H7.
Defined.

Lemma expectOID_scope_forms_witness :
  exists p2,
    expectOID "c" (NewParser "f" (newLexer "1f:b)")) = Ret ("1f", "b") p2.
Proof.
  assert (H : exists p1 tk p2 tk2 p3,
             expectID (NewParser "f" (newLexer "1f:b)")) = Ret "1f" p1 /\
             err p1 = None /\ peekTok p1 = Ret tk p2 /\ typ tk = tCOLON /\
             peekTok (with_peeked p2 None) = Ret tk2 p3 /\
             typ tk2 = tNAME /\ val tk2 = "b").
  { eexists _, _, _, _, _.
    do 6 (split; [vm_compute; reflexivity |]). vm_compute. reflexivity. }
  destruct H as (p1 & tk & p2 & tk2 & p3 & H1 & H2 & H3 & H4 & H5 & H6 & H7).
  exists (with_peeked p3 None). rewrite <- H7.
  apply (proj2 (proj2 (expectOID_scope_forms "c"
                         (NewParser "f" (newLexer "1f:b)")) p1 p2 "1f" tk
                         H1 H2 H3)
                  H4 tk2 p3 H5)).
  exact H6.
Defined.

Lemma expectCells_error_gives_no_cells_witness :
  exists p',
    expectCells 5 (NewParser "f" (newLexer "(a=b)(c^1)")) = Ret ∅ p' /\
    err p' = Some (ErrBadAlias "f" "1" "a").
Proof.
  assert (H : exists m p',
             expectCells 5 (NewParser "f" (newLexer "(a=b)(c^1)")) = Ret m p' /\
             err p' = Some (ErrBadAlias "f" "1" "a")).
  { eexists _, _. split; vm_compute; reflexivity. }
  destruct H as (m & p' & H & He). exists p'. split; [| exact He].
  pose proof (expectCells_error_gives_no_cells _ _ _ _ H ltac:(congruence))
    as ->.
  exact H.
Defined.

Lemma unexpected_item_is_an_error_witness :
  exists p1,
    Parse_loop 1 ∅ (NewParser "f" (newLexer ")")) =
    Ret (∅, Some (ErrUnexpected "f" (mkItem tRPAREN ")" (mkPos 0 1 0)))) p1.
Proof.
  assert (H : exists p1,
             peekTok (NewParser "f" (newLexer ")")) =
             Ret (mkItem tRPAREN ")" (mkPos 0 1 0)) p1).
  { eexists. vm_compute. reflexivity. }
  destruct H as (p1 & H). eexists.
  apply (proj1 unexpected_item_is_an_error 0 ∅
           (NewParser "f" (newLexer ")")) _ p1 H); discriminate.
Defined.
